(** * python-schoof: naive polynomial rings and quotient rings

    A shallow embedding of [polynomials/naive.py] (classes [PolynomialRing]
    and [ListPolynomial]) and of [pyschoof/rings/quotients/naive.py] (class
    [QuotientRing]), followed by the properties of the two constructions.

    Python objects that are only read are Rocq values; the list object a
    [ListPolynomial] keeps and pops from lives in an explicit store in the
    second half of the embedding ([ListStore]), and so do quotient ring
    elements ([ObjectStore]).  A call that may raise has an [outcome]. *)

From Stdlib Require Import ZArith Lia Ring.
From stdpp Require Import base option list gmap strings pretty.

#[local] Open Scope Z_scope.

(** ** Outcomes of a call *)

(** The exceptions the two files can raise.  [CoercionFailure] stands for
    whatever the coefficient ring's own constructor raises on an input it
    cannot interpret. *)
Inductive exception : Type :=
  | TypeError
  | ZeroDivisionError
  | IndexError
  | CoercionFailure.

Inductive outcome (A : Type) : Type :=
  | Return (a : A)
  | Raise (e : exception).
Arguments Return {A} a.
Arguments Raise {A} e.

#[global] Instance outcome_ret : MRet outcome := fun A a => Return a.
#[global] Instance outcome_bind : MBind outcome := fun A B f m =>
  match m with
  | Return a => f a
  | Raise e => Raise e
  end.

(** [[ f(c) for c in l ]] where [f] may raise: the first exception wins. *)
Fixpoint outcome_map {A B : Type} (f : A → outcome B) (l : list A) : outcome (list B) :=
  match l with
  | [] => Return []
  | c :: rest => b ← f c; bs ← outcome_map f rest; Return (b :: bs)
  end.

(** ** The operations a coefficient or source ring supplies *)

(** What both constructions use of a ring [R] with elements [T]: the
    constructor [R(c)], [R.zero()], [R.one()], and on elements [__bool__],
    [__eq__], [__add__], [__neg__], [__mul__] and [__divmod__].  The
    operations on elements are total functions here. *)
Class RingCapability (T : Type) : Type := {
  ring_raw : Type;
  ring_call : ring_raw → outcome T;
  ring_zero : T;
  ring_one : T;
  ring_bool : T → bool;
  ring_eq : T → T → bool;
  ring_add : T → T → T;
  ring_neg : T → T;
  ring_mul : T → T → T;
  ring_divmod : T → T → T * T;
}.

(** [x % m] is the remainder of [divmod(x, m)]. *)
Definition ring_mod {T : Type} {R : RingCapability T} (x m : T) : T :=
  (ring_divmod x m).2.

(** [x != y] is [not (x == y)]. *)
Definition ring_ne {T : Type} {R : RingCapability T} (x y : T) : bool :=
  negb (ring_eq x y).

(** Modelled from the spec: the integer ring handed to both constructions in
    the scenarios (section 6, External interfaces, and section 8); its
    module is not among the two files embedded here.  Elements are Python
    integers: [divmod] is floor division, whose remainder has the sign of the
    divisor, as [Z.div] and [Z.modulo] have.  Division by zero raises in
    Python; every use below has a non-zero divisor. *)
#[global] Instance Integers : RingCapability Z := {|
  ring_raw := Z;
  ring_call := Return;
  ring_zero := 0;
  ring_one := 1;
  ring_bool := fun z => negb (z =? 0);
  ring_eq := Z.eqb;
  ring_add := Z.add;
  ring_neg := Z.opp;
  ring_mul := Z.mul;
  ring_divmod := fun a b => (a / b, a mod b);
|}.

(** ** polynomials/naive.py, on values *)

Module ListPolynomial.
Section Defs.
Context {T : Type} {R : RingCapability T}.

(** The two private attributes [__zero_coefficient] and [__coefficients]. *)
Record t : Type := mk {
  zero_coefficient : T;
  coefficients : list T;
}.

(** One test of the [while] condition of [__remove_leading_zeros]:
    [len(cs) > 1 and cs[-1] == zero]. *)
Definition has_leading_zero (zero : T) (cs : list T) : bool :=
  bool_decide (1 < length cs)%nat &&
  match last cs with
  | Some c => ring_eq c zero
  | None => false
  end.

(** The loop of [__remove_leading_zeros]; every pass pops one element, so
    [length cs] passes are enough ([remove_leading_zeros_stable]). *)
Fixpoint remove_leading_zeros_loop (passes : nat) (zero : T) (cs : list T) : list T :=
  match passes with
  | O => cs
  | S n =>
      if has_leading_zero zero cs
      then remove_leading_zeros_loop n zero (removelast cs)
      else cs
  end.

Definition remove_leading_zeros (zero : T) (cs : list T) : list T :=
  remove_leading_zeros_loop (length cs) zero cs.

(** [__init__(self, zero, coefficient_list)] *)
Definition init (zero : T) (coefficient_list : list T) : t :=
  mk zero (remove_leading_zeros zero coefficient_list).

(** [degree(self)]: [len(self.__coefficients) - 1] *)
Definition degree (self : t) : Z :=
  Z.of_nat (length (coefficients self)) - 1.

(** [__getitem__(self, index)]: Python list indexing with an integer; a
    negative index counts from the end, an index outside
    [-len .. len-1] raises [IndexError]. *)
Definition list_getitem (l : list T) (index : Z) : outcome T :=
  let n := Z.of_nat (length l) in
  let i := if index <? 0 then index + n else index in
  if (0 <=? i) && (i <? n)
  then match l !! Z.to_nat i with
       | Some c => Return c
       | None => Raise IndexError
       end
  else Raise IndexError.

Definition getitem (self : t) (index : Z) : outcome T :=
  list_getitem (coefficients self) index.

(** [__eq__(self, other)] *)
Definition eq (self other : t) : bool :=
  if negb (degree self =? degree other) then false
  else forallb (fun xy => negb (ring_ne xy.1 xy.2))
               (zip (coefficients self) (coefficients other)).

(** [__pad_and_zip(list1, list2, padding_element)] *)
Definition pad_and_zip (list1 list2 : list T) (padding_element : T) : list (T * T) :=
  let max_length := Nat.max (length list1) (length list2) in
  let padded_list1 := list1 ++ replicate (max_length - length list1) padding_element in
  let padded_list2 := list2 ++ replicate (max_length - length list2) padding_element in
  zip padded_list1 padded_list2.

(** [__add__(self, other)] *)
Definition add (self other : t) : t :=
  let coefficient_pairs :=
    pad_and_zip (coefficients self) (coefficients other) (zero_coefficient self) in
  let coefficient_sums := map (fun xy => ring_add xy.1 xy.2) coefficient_pairs in
  init (zero_coefficient self) coefficient_sums.

(** [__neg__(self)] *)
Definition neg (self : t) : t :=
  init (zero_coefficient self) (map ring_neg (coefficients self)).

(** [enumerate(l)] *)
Definition enumerate {A : Type} (l : list A) : list (nat * A) :=
  zip (seq 0 (length l)) l.

(** [result[k] += v]: reads slot [k], adds, stores; an index past the end
    raises [IndexError]. *)
Definition iadd_at (result : list T) (k : nat) (v : T) : outcome (list T) :=
  match result !! k with
  | Some old => Return (<[k := ring_add old v]> result)
  | None => Raise IndexError
  end.

(** The inner [for j, y in enumerate(other.__coefficients)] of [__mul__]. *)
Fixpoint mul_inner (i : nat) (x : T) (ys : list (nat * T)) (result : list T)
    : outcome (list T) :=
  match ys with
  | [] => Return result
  | (j, y) :: rest =>
      result' ← iadd_at result (i + j) (ring_mul x y);
      mul_inner i x rest result'
  end.

(** The outer [for i, x in enumerate(self.__coefficients)]. *)
Fixpoint mul_outer (xs : list (nat * T)) (ys : list (nat * T)) (result : list T)
    : outcome (list T) :=
  match xs with
  | [] => Return result
  | (i, x) :: rest =>
      result' ← mul_inner i x ys result;
      mul_outer rest ys result'
  end.

(** The list [result] of [__mul__] when the loops are done, before it is
    handed to the constructor: [[zero] * n] is empty for [n <= 0]. *)
Definition mul_result (self other : t) : outcome (list T) :=
  let result :=
    replicate (Z.to_nat (degree self + degree other + 2)) (zero_coefficient self) in
  mul_outer (enumerate (coefficients self)) (enumerate (coefficients other)) result.

(** [__mul__(self, other)] *)
Definition mul (self other : t) : outcome t :=
  result ← mul_result self other;
  Return (init (zero_coefficient self) result).

(** [multiplicative_inverse(self)]: [raise TypeError] *)
Definition multiplicative_inverse (self : t) : outcome t :=
  Raise TypeError.
End Defs.
Arguments t T : clear implicits.
End ListPolynomial.

Module PolynomialRing.
Section Defs.
Context {T : Type} {R : RingCapability T}.

(** [__call__(self, *coefficient_list)]: every raw coefficient goes through
    the coefficient ring's constructor, then [ListPolynomial(zero, ...)]. *)
Definition call (coefficient_list : list ring_raw) : outcome (ListPolynomial.t T) :=
  cs ← outcome_map ring_call coefficient_list;
  Return (ListPolynomial.init ring_zero cs).
End Defs.
End PolynomialRing.

(** ** pyschoof/rings/quotients/naive.py, on values *)

Module QuotientRing.
Section Defs.
Context {T : Type} {R : RingCapability T}.
(** The template parameter [_modulus] (the other one, [_ring], is [R]) and
    the imported function [extended_euclidean_algorithm].  The decorator
    [operand_casting] hands every binary operator an [other] that already is
    an element of the class, so [other] is one below. *)
Context (_modulus : T) (extended_euclidean_algorithm : T → T → T * T * T).

(** The one private attribute, [__remainder]; [remainder()] reads it. *)
Record t : Type := mk { remainder : T }.

(** The three kinds of argument [__init__] tells apart with [isinstance]. *)
Inductive representative : Type :=
  | Element (e : t)
  | Source (x : T)
  | Raw (c : ring_raw).

(** [__init__(self, representative)] *)
Definition init (rep : representative) : outcome t :=
  match rep with
  | Element e => Return (mk (remainder e))
  | Source x => Return (mk (ring_mod x _modulus))
  | Raw c => x ← ring_call c; Return (mk (ring_mod x _modulus))
  end.

(** [__bool__(self)] *)
Definition bool (self : t) : Datatypes.bool := ring_bool (remainder self).

(** [__eq__(self, other)] *)
Definition eq (self other : t) : Datatypes.bool :=
  ring_eq (remainder self) (remainder other).

(** [__add__(self, other)] *)
Definition add (self other : t) : outcome t :=
  init (Source (ring_add (remainder self) (remainder other))).

(** [__neg__(self)] *)
Definition neg (self : t) : outcome t :=
  init (Source (ring_neg (remainder self))).

(** [__mul__(self, other)] *)
Definition mul (self other : t) : outcome t :=
  init (Source (ring_mul (remainder self) (remainder other))).

(** [multiplicative_inverse(self)] *)
Definition multiplicative_inverse (self : t) : outcome t :=
  if negb (ring_bool (remainder self)) then Raise ZeroDivisionError
  else
    let '(inverse, ignore, gcd) :=
      extended_euclidean_algorithm (remainder self) _modulus in
    if ring_eq gcd ring_one then init (Source inverse)
    else Raise ZeroDivisionError.

(** [__truediv__(self, other)] *)
Definition truediv (self other : t) : outcome t :=
  inverse ← multiplicative_inverse other;
  mul self inverse.

(** [__rtruediv__(self, other)] *)
Definition rtruediv (self other : t) : outcome t :=
  inverse ← multiplicative_inverse self;
  mul other inverse.

(** The class methods [modulus()], [zero()] and [one()]. *)
Definition modulus : T := _modulus.
Definition zero : outcome t := init (Source ring_zero).
Definition one : outcome t := init (Source ring_one).
End Defs.
Arguments t T : clear implicits.
Arguments representative T {R}.
End QuotientRing.

(** ** The extended Euclidean algorithm *)

Section Euclid.
Context {T : Type} {R : RingCapability T}.

(** Modelled from the spec: the loop of [extended_euclidean_algorithm]
    ([support.rings], imported by the quotient ring module but not one of
    the two files embedded here), after section 4.5: repeated division
    with remainder that carries the two pairs of Bezout coefficients along.
    [passes] bounds the number of divisions. *)
Fixpoint eea_loop (passes : nat) (u v x last_x y last_y : T) : T * T * T :=
  match passes with
  | O => (last_x, last_y, u)
  | S n =>
      if ring_bool v then
        let '(quotient, rest) := ring_divmod u v in
        eea_loop n v rest
          (ring_add last_x (ring_neg (ring_mul quotient x))) x
          (ring_add last_y (ring_neg (ring_mul quotient y))) y
      else (last_x, last_y, u)
  end.

(** Modelled from the spec: [extended_euclidean_algorithm(a, b)] itself,
    returning [(x, y, g)]; [measure] is the ring's division-remainder
    measure of section 4.5, which every division decreases, so
    [measure b] divisions (and one last test) are enough
    ([eea_loop_stable]). *)
Definition extended_euclidean_algorithm (measure : T → nat) (a b : T) : T * T * T :=
  eea_loop (S (measure b)) a b ring_zero ring_one ring_one ring_zero.
End Euclid.

(** Modelled from the spec: the algorithm at the integers, where the measure
    is the absolute value. *)
Definition Integers_eea : Z → Z → Z * Z * Z :=
  extended_euclidean_algorithm (R := Integers) Z.abs_nat.

(** ** polynomials/naive.py, on a store of list objects *)

(** A [ListPolynomial] object binds its two attributes once, in [__init__],
    and the list it is given is a mutable object that [__init__] pops from.
    Here the lists live in a store; a polynomial object is its zero and the
    address of its list.  An operation takes the store and gives [None] when
    it raises or does not finish within its passes. *)
Module ListStore.
Section Defs.
Context {T : Type} {R : RingCapability T}.

Abbreviation loc := positive.
Abbreviation store := (gmap positive (list T)).

Record obj : Type := mk {
  zero_coefficient : T;
  coefficients : loc;
}.

(** A new list object, at an address the store does not use yet. *)
Definition new_list (l : list T) (σ : store) : loc * store :=
  let ℓ := fresh (dom σ) in (ℓ, <[ℓ := l]> σ).

(** [l.pop()] on the list at [ℓ]. *)
Definition pop (ℓ : loc) (σ : store) : option store :=
  l ← σ !! ℓ;
  match l with
  | [] => None
  | _ :: _ => Some (<[ℓ := removelast l]> σ)
  end.

(** [__remove_leading_zeros(self)], in place on the list at [ℓ]. *)
Fixpoint remove_leading_zeros (passes : nat) (zero : T) (ℓ : loc) (σ : store)
    : option store :=
  match passes with
  | O => None
  | S n =>
      l ← σ !! ℓ;
      if ListPolynomial.has_leading_zero zero l
      then σ' ← pop ℓ σ; remove_leading_zeros n zero ℓ σ'
      else Some σ
  end.

(** [__init__(self, zero, coefficient_list)]: the object keeps the very
    list it is given. *)
Definition init (zero : T) (coefficient_list : loc) (σ : store) : option (obj * store) :=
  l ← σ !! coefficient_list;
  σ' ← remove_leading_zeros (S (length l)) zero coefficient_list σ;
  Some (mk zero coefficient_list, σ').

(** [__add__(self, other)]: the padded lists, the zip and the list of sums
    are new objects; only the last is kept. *)
Definition add (self other : obj) (σ : store) : option (obj * store) :=
  l1 ← σ !! coefficients self;
  l2 ← σ !! coefficients other;
  let coefficient_pairs := ListPolynomial.pad_and_zip l1 l2 (zero_coefficient self) in
  let '(coefficient_sums, σ1) :=
    new_list (map (fun xy => ring_add xy.1 xy.2) coefficient_pairs) σ in
  init (zero_coefficient self) coefficient_sums σ1.

(** [__neg__(self)] *)
Definition neg (self : obj) (σ : store) : option (obj * store) :=
  l ← σ !! coefficients self;
  let '(negated, σ1) := new_list (map ring_neg l) σ in
  init (zero_coefficient self) negated σ1.

(** [for i, x in enumerate(src): body] from index [i] on: the iterator
    reads the list at [src] anew before every pass and stops at its end. *)
Fixpoint for_enumerate (passes : nat) (src : loc) (i : nat)
    (body : nat → T → store → option store) (σ : store) : option store :=
  match passes with
  | O => None
  | S n =>
      l ← σ !! src;
      match l !! i with
      | None => Some σ
      | Some x => σ' ← body i x σ; for_enumerate n src (S i) body σ'
      end
  end.

(** [result[k] += v] on the list at [ℓ]. *)
Definition iadd_at (ℓ : loc) (k : nat) (v : T) (σ : store) : option store :=
  l ← σ !! ℓ;
  old ← l !! k;
  Some (<[ℓ := <[k := ring_add old v]> l]> σ).

(** [__mul__(self, other)] *)
Definition mul (self other : obj) (σ : store) : option (obj * store) :=
  l1 ← σ !! coefficients self;
  l2 ← σ !! coefficients other;
  let n := Z.to_nat ((Z.of_nat (length l1) - 1) + (Z.of_nat (length l2) - 1) + 2) in
  let '(result, σ1) := new_list (replicate n (zero_coefficient self)) σ in
  σ2 ← for_enumerate (S (length l1)) (coefficients self) 0
         (fun i x =>
            for_enumerate (S (length l2)) (coefficients other) 0
              (fun j y => iadd_at result (i + j) (ring_mul x y)))
         σ1;
  init (zero_coefficient self) result σ2.
End Defs.
Arguments obj T : clear implicits.
End ListStore.

(** ** pyschoof/rings/quotients/naive.py, on a store of element objects *)

(** The store maps the address of a quotient ring element to the value of
    its [__remainder] attribute, which only [__init__] binds. *)
Module ObjectStore.
Section Defs.
Context {T : Type} {R : RingCapability T}.
Context (_modulus : T).

Abbreviation loc := positive.
Abbreviation store := (gmap positive T).

Inductive representative : Type :=
  | Element (e : loc)
  | Source (x : T)
  | Raw (c : ring_raw).

(** A new element object whose [__remainder] is [r]. *)
Definition new_element (r : T) (σ : store) : loc * store :=
  let ℓ := fresh (dom σ) in (ℓ, <[ℓ := r]> σ).

(** [__init__(self, representative)] on a new object. *)
Definition init (rep : representative) (σ : store) : option (loc * store) :=
  match rep with
  | Element e => r ← σ !! e; Some (new_element r σ)
  | Source x => Some (new_element (ring_mod x _modulus) σ)
  | Raw c =>
      match ring_call c with
      | Return x => Some (new_element (ring_mod x _modulus) σ)
      | Raise _ => None
      end
  end.

(** [__add__], [__neg__] and [__mul__] *)
Definition add (self other : loc) (σ : store) : option (loc * store) :=
  r1 ← σ !! self; r2 ← σ !! other; init (Source (ring_add r1 r2)) σ.

Definition neg (self : loc) (σ : store) : option (loc * store) :=
  r ← σ !! self; init (Source (ring_neg r)) σ.

Definition mul (self other : loc) (σ : store) : option (loc * store) :=
  r1 ← σ !! self; r2 ← σ !! other; init (Source (ring_mul r1 r2)) σ.
End Defs.
Arguments representative T {R}.
End ObjectStore.

(** * Properties *)

(** ** What the properties say about a ring and about a polynomial *)

(** The source ring is a commutative ring whose [==] decides equality, and
    division with remainder by a non-zero divisor splits the dividend and
    gives one remainder for a whole residue class. *)
Class EuclideanRing {T : Type} (R : RingCapability T) : Prop := {
  ring_laws :
    ring_theory ring_zero ring_one ring_add ring_mul
      (fun a b => ring_add a (ring_neg b)) ring_neg (@Logic.eq T);
  ring_eq_spec : ∀ a b, ring_eq a b = true ↔ a = b;
  ring_divmod_spec : ∀ a b,
    ring_bool b = true →
    a = ring_add (ring_mul (ring_divmod a b).1 b) (ring_mod a b);
  ring_mod_canonical : ∀ a k b,
    ring_bool b = true →
    ring_mod (ring_add a (ring_mul k b)) b = ring_mod a b;
}.

(** The contract of the extended Euclidean algorithm: the coefficients it
    returns combine the two inputs to the third result. *)
Definition Bezout {T : Type} {R : RingCapability T} (eea : T → T → T * T * T) : Prop :=
  ∀ a b, ring_add (ring_mul a (eea a b).1.1) (ring_mul b (eea a b).1.2) = (eea a b).2.

(** The normalization invariant: there is a highest coefficient, and if it
    equals the zero then it is the only coefficient. *)
Definition normalized {T : Type} {R : RingCapability T} (p : ListPolynomial.t T) : Prop :=
  ∃ c, last (ListPolynomial.coefficients p) = Some c ∧
       (ring_eq c (ListPolynomial.zero_coefficient p) = true →
        ListPolynomial.coefficients p = [c]).

(** The sum of [p[i] * q[j]] over [i + j = k], taken by increasing [i] from
    the zero: [i] runs over [0 .. k], and a term counts when both [p[i]] and
    [q[k - i]] exist. *)
Definition convolution_slot {T : Type} {R : RingCapability T}
    (zero : T) (p q : list T) (k : nat) : T :=
  foldl ring_add zero
    (omap (fun i => x ← p !! i; y ← q !! (k - i)%nat; Some (ring_mul x y))
          (seq 0 (S k))).

(** What the pass for [(i, x)] of the outer loop of [__mul__] adds to slot
    [k]: the product with [q[k - i]], when [q] has that index; and a slot
    after such a pass. *)
Definition slot_term {T : Type} {R : RingCapability T}
    (i : nat) (x : T) (q : list T) (k : nat) : option T :=
  if decide (i ≤ k)%nat then ring_mul x <$> q !! (k - i)%nat else None.

Definition accumulate {T : Type} {R : RingCapability T}
    (old : T) (term : option T) : T :=
  from_option (ring_add old) old term.

(** [x^2 + 2x + 5] over the integers, as [make(5, 2, 1)] returns it. *)
Definition p521 : ListPolynomial.t Z := ListPolynomial.mk 0 [5; 2; 1].

(** A stored remainder is reduced when reducing it again changes nothing. *)
Definition reduced {T : Type} {R : RingCapability T} (modulus : T) (e : QuotientRing.t T) : Prop :=
  ring_mod (QuotientRing.remainder e) modulus = QuotientRing.remainder e.

(** An outcome that is an element with a reduced remainder, and an outcome
    that is one if it is an element at all. *)
Definition returns_reduced {T : Type} {R : RingCapability T}
    (modulus : T) (m : outcome (QuotientRing.t T)) : Prop :=
  ∃ e, m = Return e ∧ reduced modulus e.

Definition reduced_if_returned {T : Type} {R : RingCapability T}
    (modulus : T) (m : outcome (QuotientRing.t T)) : Prop :=
  ∀ e, m = Return e → reduced modulus e.

(** An operation on a store returns a new object and leaves every object
    of the store as it was: the result [c] sits at an address [at_ c] the
    store did not use, and whatever the store held it still holds. *)
Definition returns_new_and_keeps {V O : Type} (at_ : O → positive)
    (σ : gmap positive V) (r : option (O * gmap positive V)) : Prop :=
  ∃ c σ', r = Some (c, σ') ∧
          σ !! at_ c = None ∧
          ∀ ℓ v, σ !! ℓ = Some v → σ' !! ℓ = Some v.

(** ** Normalization *)

Section Normalization.
Context {T : Type} {R : RingCapability T}.
Implicit Types (zero c : T) (cs : list T).

Lemma has_leading_zero_snoc zero cs c :
  ListPolynomial.has_leading_zero zero (cs ++ [c]) =
  bool_decide (cs ≠ []) && ring_eq c zero.
Proof.
  unfold ListPolynomial.has_leading_zero.
  rewrite last_snoc, length_app. simpl.
  destruct cs as [|c' cs']; simpl; [reflexivity|].
  rewrite (bool_decide_eq_true_2 (1 < _)%nat) by lia.
  reflexivity.
Qed.

Lemma has_leading_zero_length zero cs :
  ListPolynomial.has_leading_zero zero cs = true → (1 < length cs)%nat.
Proof.
  unfold ListPolynomial.has_leading_zero. intros H.
  apply andb_true_iff in H as [H _]. by apply bool_decide_eq_true in H.
Qed.

(** Once the passes cover the length, the loop stops on its own test. *)
Lemma remove_leading_zeros_loop_stable passes zero cs :
  (length cs ≤ passes)%nat →
  ListPolynomial.has_leading_zero zero
    (ListPolynomial.remove_leading_zeros_loop passes zero cs) = false.
Proof.
  revert cs. induction passes as [|n IH]; intros cs Hlen; simpl.
  - destruct cs; [reflexivity | simpl in Hlen; lia].
  - destruct (ListPolynomial.has_leading_zero zero cs) eqn:Hz; [|exact Hz].
    apply IH. apply has_leading_zero_length in Hz.
    rewrite removelast_firstn_len, length_take. lia.
Qed.

(** More passes than the length change nothing. *)
Lemma remove_leading_zeros_loop_enough passes zero cs :
  (length cs ≤ passes)%nat →
  ListPolynomial.remove_leading_zeros_loop passes zero cs =
  ListPolynomial.remove_leading_zeros zero cs.
Proof.
  unfold ListPolynomial.remove_leading_zeros.
  revert cs. induction passes as [|n IH]; intros cs Hlen.
  - destruct cs; [reflexivity | simpl in Hlen; lia].
  - destruct cs as [|c cs'] using rev_ind; [reflexivity|].
    rewrite length_app in *. simpl in *.
    replace (length cs' + 1)%nat with (S (length cs')) by lia. simpl.
    destruct (ListPolynomial.has_leading_zero zero (cs' ++ [c])); [|reflexivity].
    rewrite removelast_last. rewrite IH by lia. reflexivity.
Qed.

Lemma remove_leading_zeros_snoc zero cs c :
  ListPolynomial.remove_leading_zeros zero (cs ++ [c]) =
  if bool_decide (cs ≠ []) && ring_eq c zero
  then ListPolynomial.remove_leading_zeros zero cs
  else cs ++ [c].
Proof.
  unfold ListPolynomial.remove_leading_zeros at 1.
  rewrite length_app. simpl.
  replace (length cs + 1)%nat with (S (length cs)) by lia. simpl.
  rewrite has_leading_zero_snoc.
  destruct (bool_decide (cs ≠ []) && ring_eq c zero); [|reflexivity].
  rewrite removelast_last. reflexivity.
Qed.

Lemma remove_leading_zeros_stable zero cs :
  ListPolynomial.has_leading_zero zero (ListPolynomial.remove_leading_zeros zero cs) = false.
Proof. by apply remove_leading_zeros_loop_stable. Qed.

Lemma remove_leading_zeros_nonempty zero cs :
  cs ≠ [] → ListPolynomial.remove_leading_zeros zero cs ≠ [].
Proof.
  induction cs as [|c cs' IH] using rev_ind; [done|]. intros _.
  rewrite remove_leading_zeros_snoc.
  destruct (bool_decide (cs' ≠ [])) eqn:Hne; simpl.
  - apply bool_decide_eq_true in Hne.
    destruct (ring_eq c zero); [by apply IH | by destruct cs'].
  - by destruct cs'.
Qed.

(** A list on which the loop test fails and that is not empty satisfies the
    invariant. *)
Lemma normalized_of_stable zero cs :
  cs ≠ [] →
  ListPolynomial.has_leading_zero zero cs = false →
  normalized (ListPolynomial.mk zero cs).
Proof.
  intros Hne Hz. destruct cs as [|c cs' _] using rev_ind; [done|].
  exists c. simpl. split; [apply last_snoc|].
  intros Hc. rewrite has_leading_zero_snoc, Hc, andb_true_r in Hz.
  apply bool_decide_eq_false in Hz.
  destruct cs'; [reflexivity | exfalso; by apply Hz].
Qed.

Lemma init_normalized zero cs :
  cs ≠ [] → normalized (ListPolynomial.init zero cs).
Proof.
  intros Hne. apply normalized_of_stable.
  - by apply remove_leading_zeros_nonempty.
  - apply remove_leading_zeros_stable.
Qed.

(** All zeros normalize to one zero. *)
Lemma remove_leading_zeros_replicate zero n :
  ring_eq zero zero = true →
  ListPolynomial.remove_leading_zeros zero (replicate (S n) zero) = [zero].
Proof.
  intros Hz. induction n as [|n IH]; [reflexivity|].
  rewrite replicate_S_end, remove_leading_zeros_snoc, Hz, andb_true_r.
  rewrite bool_decide_eq_true_2 by done. exact IH.
Qed.
End Normalization.

(** ** The loops of multiplication *)

Section Convolution.
Context {T : Type} {R : RingCapability T}.
Implicit Types (x y zero : T) (p q result : list T) (i j k : nat).

Lemma enumerate_snoc {A : Type} (l : list A) (a : A) :
  ListPolynomial.enumerate (l ++ [a]) = ListPolynomial.enumerate l ++ [(length l, a)].
Proof.
  unfold ListPolynomial.enumerate.
  rewrite length_app. simpl. rewrite seq_app. simpl.
  rewrite zip_with_app by (by rewrite length_seq). reflexivity.
Qed.

Lemma length_enumerate {A : Type} (l : list A) :
  length (ListPolynomial.enumerate l) = length l.
Proof.
  unfold ListPolynomial.enumerate. rewrite length_zip_with, length_seq. lia.
Qed.

Lemma mul_inner_app i x ys1 ys2 result :
  ListPolynomial.mul_inner i x (ys1 ++ ys2) result =
  ListPolynomial.mul_inner i x ys1 result ≫= ListPolynomial.mul_inner i x ys2.
Proof.
  revert result. induction ys1 as [|[j y] ys1 IH]; intros result; [reflexivity|].
  simpl. destruct (ListPolynomial.iadd_at result (i + j) (ring_mul x y)); simpl; [apply IH|reflexivity].
Qed.

Lemma mul_outer_app xs1 xs2 ys result :
  ListPolynomial.mul_outer (xs1 ++ xs2) ys result =
  ListPolynomial.mul_outer xs1 ys result ≫= ListPolynomial.mul_outer xs2 ys.
Proof.
  revert result. induction xs1 as [|[i x] xs1 IH]; intros result; [reflexivity|].
  simpl. destruct (ListPolynomial.mul_inner i x ys result); simpl; [apply IH|reflexivity].
Qed.

(** [result[k] += v] inside the list. *)
Lemma iadd_at_inside result k v :
  (k < length result)%nat →
  ∃ old, result !! k = Some old ∧
         ListPolynomial.iadd_at result k v = Return (<[k := ring_add old v]> result).
Proof.
  intros Hk. destruct (lookup_lt_is_Some_2 result k Hk) as [old Hold].
  exists old. split; [exact Hold|]. unfold ListPolynomial.iadd_at. by rewrite Hold.
Qed.

(** The inner loop never leaves the list, keeps its length, and adds to
    every slot its one term. *)
Lemma mul_inner_slots i x q result :
  (i + length q ≤ length result)%nat →
  ∃ r, ListPolynomial.mul_inner i x (ListPolynomial.enumerate q) result = Return r ∧
       length r = length result ∧
       ∀ k, r !! k = (fun old => accumulate old (slot_term i x q k)) <$> result !! k.
Proof.
  induction q as [|y q IH] using rev_ind; intros Hlen.
  - exists result. split; [reflexivity|]. split; [reflexivity|]. intros k.
    unfold slot_term. destruct (decide (i ≤ k)%nat); simpl; by destruct (result !! k).
  - rewrite length_app in Hlen. simpl in Hlen.
    destruct IH as (r1 & Hr1 & Hlen1 & Hslots1); [lia|].
    rewrite enumerate_snoc, mul_inner_app, Hr1. simpl.
    destruct (iadd_at_inside r1 (i + length q) (ring_mul x y)) as (old & Hold & Hadd); [lia|].
    rewrite Hadd. eexists. split; [reflexivity|].
    split; [by rewrite length_insert|]. intros k.
    destruct (decide (k = i + length q)%nat) as [->|Hne].
    + rewrite list_lookup_insert_eq by lia.
      rewrite Hslots1 in Hold. destruct (result !! (i + length q)%nat) as [old0|]; [|done].
      simpl in *. injection Hold as <-. unfold slot_term.
      rewrite !decide_True by lia.
      replace (i + length q - i)%nat with (length q) by lia.
      rewrite lookup_app_r, Nat.sub_diag by lia.
      rewrite lookup_ge_None_2 by lia. reflexivity.
    + rewrite list_lookup_insert_ne by done. rewrite Hslots1.
      destruct (result !! k) as [old0|]; [|done]. simpl. do 2 f_equal.
      unfold slot_term. destruct (decide (i ≤ k)%nat); [|done].
      destruct (decide (k - i < length q)%nat).
      * by rewrite lookup_app_l.
      * rewrite !lookup_ge_None_2; [done| |lia]. rewrite length_app. simpl. lia.
Qed.

Lemma foldl_accumulate_snoc (f : nat → option T) old l n :
  foldl ring_add old (omap f (l ++ [n])) =
  accumulate (foldl ring_add old (omap f l)) (f n).
Proof.
  rewrite omap_app, foldl_app. simpl. by destruct (f n).
Qed.

(** The outer loop: slot [k] gathers, by increasing [i], the terms of all
    passes. *)
Lemma mul_outer_slots p q result :
  (length p + length q ≤ length result)%nat →
  ∃ r, ListPolynomial.mul_outer
         (ListPolynomial.enumerate p) (ListPolynomial.enumerate q) result = Return r ∧
       length r = length result ∧
       ∀ k, r !! k =
            (fun old => foldl ring_add old
               (omap (fun i => x ← p !! i; slot_term i x q k) (seq 0 (length p))))
            <$> result !! k.
Proof.
  induction p as [|x p IH] using rev_ind; intros Hlen.
  - exists result. split; [reflexivity|]. split; [reflexivity|]. intros k.
    simpl. by destruct (result !! k).
  - rewrite length_app in Hlen. simpl in Hlen.
    destruct IH as (r1 & Hr1 & Hlen1 & Hslots1); [lia|].
    rewrite enumerate_snoc, mul_outer_app, Hr1. simpl.
    destruct (mul_inner_slots (length p) x q r1) as (r2 & Hr2 & Hlen2 & Hslots2); [lia|].
    rewrite Hr2. simpl. exists r2. split; [reflexivity|].
    split; [congruence|]. intros k.
    rewrite Hslots2, Hslots1, <- option_fmap_compose.
    destruct (result !! k) as [old|]; [|done]. simpl. f_equal.
    rewrite length_app. simpl. rewrite seq_app. simpl.
    rewrite foldl_accumulate_snoc.
    rewrite lookup_app_r, Nat.sub_diag by lia. simpl. f_equal.
    f_equal. apply list_omap_ext, Forall2_same_length_lookup_2; [done|].
    intros j a b Ha Hb. apply lookup_seq in Ha as [-> ?], Hb as [-> ?]. simpl.
    by rewrite lookup_app_l.
Qed.

Lemma omap_none {A B : Type} (f : A → option B) (l : list A) :
  (∀ a, a ∈ l → f a = None) → omap f l = [].
Proof.
  induction l as [|a l IH]; intros H; [reflexivity|]. simpl.
  rewrite (H a) by left. apply IH. intros b Hb. apply H. by right.
Qed.

Lemma omap_seq_cut {B : Type} (f : nat → option B) n d :
  (∀ i, (n ≤ i)%nat → f i = None) → omap f (seq 0 (n + d)) = omap f (seq 0 n).
Proof.
  intros H. rewrite seq_app, omap_app, (omap_none f (seq _ d)), app_nil_r; [done|].
  intros i Hi. apply list_elem_of_lookup in Hi as [j Hj].
  apply lookup_seq in Hj as [-> _]. apply H. lia.
Qed.

(** The terms the loops gather are those of the convolution. *)
Lemma gathered_terms_convolution p q k :
  omap (fun i => x ← p !! i; slot_term i x q k) (seq 0 (length p)) =
  omap (fun i => x ← p !! i; y ← q !! (k - i)%nat; Some (ring_mul x y)) (seq 0 (S k)).
Proof.
  set (f := fun i => x ← p !! i; slot_term i x q k).
  set (m := Nat.min (length p) (S k)).
  assert (Hcut : ∀ i, (m ≤ i)%nat → f i = None).
  { intros i Hi. unfold f. destruct (decide (length p ≤ i)%nat).
    - by rewrite lookup_ge_None_2.
    - destruct (p !! i); [|done]. simpl. unfold slot_term.
      rewrite decide_False; [done|lia]. }
  replace (length p) with (m + (length p - m))%nat by lia.
  rewrite (omap_seq_cut f) by done.
  rewrite <- (omap_seq_cut f m (S k - m)) by done.
  replace (m + (S k - m))%nat with (S k) by lia.
  apply list_omap_ext, Forall2_same_length_lookup_2; [done|].
  intros j a b Ha Hb. apply lookup_seq in Ha as [-> ?], Hb as [-> ?]. simpl.
  unfold f. destruct (p !! j) as [x|]; [|done]. simpl. unfold slot_term.
  rewrite decide_True by lia. by destruct (q !! (k - j)%nat).
Qed.

(** The list of [__mul__] before normalization, slot by slot. *)
Lemma mul_result_convolution (a b : ListPolynomial.t T) :
  let n := (length (ListPolynomial.coefficients a) +
            length (ListPolynomial.coefficients b))%nat in
  ListPolynomial.mul_result a b =
  Return (map (convolution_slot (ListPolynomial.zero_coefficient a)
                 (ListPolynomial.coefficients a) (ListPolynomial.coefficients b))
              (seq 0 n)).
Proof.
  destruct a as [zero p], b as [zero' q]. simpl.
  unfold ListPolynomial.mul_result, ListPolynomial.degree. simpl.
  replace (Z.to_nat _) with (length p + length q)%nat by lia.
  destruct (mul_outer_slots p q (replicate (length p + length q) zero))
    as (r & Hr & Hlen & Hslots); [by rewrite length_replicate|].
  rewrite Hr. f_equal. rewrite length_replicate in Hlen.
  apply list_eq_same_length with (length p + length q)%nat;
    [by rewrite length_map, length_seq | done |].
  intros k c c' Hk Hc Hc'.
  rewrite Hslots, lookup_replicate_2 in Hc by done. simpl in Hc.
  rewrite list_lookup_fmap, lookup_seq_lt in Hc' by done. simpl in Hc'.
  rewrite gathered_terms_convolution in Hc. unfold convolution_slot in Hc'.
  congruence.
Qed.
End Convolution.

(** ** Polynomials: multiplication, normalization, indexing, inversion *)

Section PolynomialClaims.
Context {T : Type} {R : RingCapability T}.
Implicit Types (p q a b : ListPolynomial.t T).

Lemma mul_returns_init a b :
  ∃ result,
    ListPolynomial.mul_result a b = Return result ∧
    length result = (length (ListPolynomial.coefficients a) +
                     length (ListPolynomial.coefficients b))%nat ∧
    ListPolynomial.mul a b =
      Return (ListPolynomial.init (ListPolynomial.zero_coefficient a) result).
Proof.
  pose proof (mul_result_convolution a b) as H. simpl in H.
  eexists. split; [exact H|]. split.
  - by rewrite length_map, length_seq.
  - unfold ListPolynomial.mul. by rewrite H.
Qed.

(** C2. Multiplication is the schoolbook convolution: the loops of
    [__mul__] return a list of length [deg(p) + deg(q) + 2] whose slot [k]
    is the sum of [p[i] * q[j]] over [i + j = k] (added by increasing [i]
    onto the zero), and the product is that list normalized; over the
    integers, [make(5, 2, 1)] squared equals [make(25, 20, 14, 4, 1)]. *)
Theorem mul_is_schoolbook_convolution p q :
  (∃ result,
     ListPolynomial.mul_result p q = Return result ∧
     Z.of_nat (length result) = ListPolynomial.degree p + ListPolynomial.degree q + 2 ∧
     result = map (convolution_slot (ListPolynomial.zero_coefficient p)
                     (ListPolynomial.coefficients p) (ListPolynomial.coefficients q))
                  (seq 0 (length result)) ∧
     ListPolynomial.mul p q =
       Return (ListPolynomial.mk (ListPolynomial.zero_coefficient p)
                 (ListPolynomial.remove_leading_zeros
                    (ListPolynomial.zero_coefficient p) result))) ∧
  (s ← PolynomialRing.call (R := Integers) [5; 2; 1];
   square ← ListPolynomial.mul s s;
   expected ← PolynomialRing.call (R := Integers) [25; 20; 14; 4; 1];
   Return (ListPolynomial.eq square expected)) = Return true.
Proof.
  split; [|reflexivity].
  pose proof (mul_result_convolution p q) as H. simpl in H.
  eexists. split; [exact H|].
  rewrite length_map, length_seq. split; [|split; [reflexivity|]].
  - unfold ListPolynomial.degree. lia.
  - unfold ListPolynomial.mul. by rewrite H.
Qed.

(** C3, as the code has it.  A polynomial built from a coefficient list that
    is not empty is normalized: by [ListPolynomial(zero, cs)], by the ring's
    [make], and by [add], [neg] and [mul] on operands whose lists are not
    empty; and over the integers [make(0)] equals [make(0, 0, 0)]. *)
Theorem nonempty_polynomials_normalized
    (zero : T) (cs : list T) (raw : list ring_raw) (made a b : ListPolynomial.t T) :
  cs ≠ [] →
  raw ≠ [] →
  PolynomialRing.call raw = Return made →
  ListPolynomial.coefficients a ≠ [] →
  ListPolynomial.coefficients b ≠ [] →
  normalized (ListPolynomial.init zero cs) ∧
  normalized made ∧
  normalized (ListPolynomial.add a b) ∧
  normalized (ListPolynomial.neg a) ∧
  (∃ product, ListPolynomial.mul a b = Return product ∧ normalized product) ∧
  (z ← PolynomialRing.call (R := Integers) [0];
   z' ← PolynomialRing.call (R := Integers) [0; 0; 0];
   Return (ListPolynomial.eq z z')) = Return true.
Proof.
  intros Hcs Hraw Hmade Ha Hb. repeat split.
  - by apply init_normalized.
  - unfold PolynomialRing.call in Hmade.
    destruct raw as [|c raw']; [done|]. simpl in Hmade.
    destruct (ring_call c) as [x|]; [|done]. simpl in Hmade.
    destruct (outcome_map ring_call raw') as [xs|]; [|done]. simpl in Hmade.
    injection Hmade as <-. by apply init_normalized.
  - apply init_normalized. unfold ListPolynomial.pad_and_zip.
    destruct (ListPolynomial.coefficients a); [done|].
    destruct (ListPolynomial.coefficients b); done.
  - apply init_normalized. by destruct (ListPolynomial.coefficients a).
  - destruct (mul_returns_init a b) as (result & _ & Hlen & Hmul).
    eexists. split; [exact Hmul|]. apply init_normalized.
    destruct result; [|done]. destruct (ListPolynomial.coefficients a); [done|].
    simpl in Hlen. lia.
Qed.

(** C6, as the code has it.  The constructor takes the empty coefficient
    list: it returns the polynomial whose list is empty, of degree [-1]. *)
Theorem empty_coefficient_list_accepted :
  PolynomialRing.call [] = Return (ListPolynomial.mk ring_zero []) ∧
  ListPolynomial.degree (ListPolynomial.mk ring_zero []) = -1.
Proof. split; reflexivity. Qed.

(** C7, as the code has it.  An index above the degree raises
    [IndexError]. *)
Theorem getitem_above_degree_raises p (index : Z) :
  ListPolynomial.degree p < index →
  ListPolynomial.getitem p index = Raise IndexError.
Proof.
  unfold ListPolynomial.degree, ListPolynomial.getitem, ListPolynomial.list_getitem.
  intros H. rewrite (proj2 (Z.ltb_ge index 0)) by lia.
  rewrite (proj2 (Z.ltb_ge index _)) by lia. by rewrite andb_false_r.
Qed.

(** C8. [multiplicative_inverse] raises for every polynomial; the exception
    is [TypeError]. *)
Theorem polynomial_inverse_always_raises p :
  ListPolynomial.multiplicative_inverse p = Raise TypeError.
Proof. reflexivity. Qed.

Lemma foldl_add_zeros (zero : T) (l : list T) :
  ring_add zero zero = zero → Forall (Logic.eq zero) l → foldl ring_add zero l = zero.
Proof.
  intros Hz Hl. induction Hl as [|x l <- _ IH]; [reflexivity|]. simpl. by rewrite Hz.
Qed.

(** C10. Where the zero annihilates products and is neutral for sums, and
    equals itself, the product of any polynomial over the ring with
    [make(0)] is the polynomial [[zero]], of degree [0], and it equals
    [make(0)]. *)
Theorem mul_by_zero_polynomial p (c0 : ring_raw) :
  (∀ x, ring_mul x ring_zero = ring_zero) →
  (∀ x, ring_add ring_zero x = x) →
  ring_eq ring_zero ring_zero = true →
  ListPolynomial.zero_coefficient p = ring_zero →
  ring_call c0 = Return ring_zero →
  (z ← PolynomialRing.call [c0];
   product ← ListPolynomial.mul p z;
   Return (ListPolynomial.coefficients product,
           ListPolynomial.degree product,
           ListPolynomial.eq product z)) = Return ([ring_zero], 0, true).
Proof.
  intros Hmul Hadd Heq Hzero Hc0.
  unfold PolynomialRing.call. simpl. rewrite Hc0. simpl.
  change (ListPolynomial.init ring_zero [ring_zero])
    with (ListPolynomial.mk ring_zero [ring_zero]).
  unfold ListPolynomial.mul.
  rewrite mul_result_convolution. simpl. rewrite Hzero.
  assert (Hslots :
    map (convolution_slot ring_zero (ListPolynomial.coefficients p) [ring_zero])
        (seq 0 (length (ListPolynomial.coefficients p) + 1)) =
    replicate (S (length (ListPolynomial.coefficients p))) ring_zero).
  { symmetry. apply replicate_as_Forall. split.
    - rewrite length_map, length_seq. lia.
    - apply Forall_forall. intros c Hc.
      apply list_elem_of_fmap in Hc as (k & -> & _).
      symmetry. apply foldl_add_zeros; [apply Hadd|].
      apply Forall_forall. intros t Ht.
      apply list_elem_of_omap in Ht as (i & _ & Ht).
      destruct (ListPolynomial.coefficients p !! i) as [x|]; [|done]. simpl in Ht.
      destruct ([ring_zero] !! (k - i)%nat) as [y|] eqn:Hy; [|done]. simpl in Ht.
      apply list_lookup_singleton_Some in Hy as [_ <-].
      injection Ht as <-. by rewrite Hmul. }
  rewrite Hslots. unfold ListPolynomial.init.
  rewrite remove_leading_zeros_replicate by done.
  unfold ListPolynomial.eq, ListPolynomial.degree, ring_ne. simpl.
  by rewrite Heq.
Qed.
End PolynomialClaims.

(** ** The integers and the extended Euclidean algorithm *)

Lemma Integers_bool_nonzero (b : Z) : @ring_bool Z Integers b = true → b ≠ 0.
Proof. simpl. intros H. apply negb_true_iff in H. by apply Z.eqb_neq. Qed.

#[global] Instance Integers_euclidean : EuclideanRing Integers.
Proof.
  split.
  - split; simpl; intros; lia.
  - intros a b. simpl. apply Z.eqb_eq.
  - intros a b Hb%Integers_bool_nonzero. unfold ring_mod. simpl.
    rewrite (Z.div_mod a b) at 1 by done. lia.
  - intros a k b Hb%Integers_bool_nonzero. unfold ring_mod. simpl.
    by apply Z.mod_add.
Qed.

Section EuclidFacts.
Context {T : Type} {R : RingCapability T} {E : EuclideanRing R}.
Add Ring source_ring_euclid : ring_laws.

(** The loop keeps both pairs of coefficients in step with the two
    remainders, however many passes it is given. *)
Lemma eea_loop_bezout passes a b u v x last_x y last_y :
  ring_add (ring_mul a last_x) (ring_mul b last_y) = u →
  ring_add (ring_mul a x) (ring_mul b y) = v →
  let r := eea_loop passes u v x last_x y last_y in
  ring_add (ring_mul a r.1.1) (ring_mul b r.1.2) = r.2.
Proof.
  revert u v x last_x y last_y.
  induction passes as [|n IH]; intros u v x last_x y last_y Hu Hv; simpl; [exact Hu|].
  destruct (ring_bool v) eqn:Hbool; [|exact Hu].
  pose proof (ring_divmod_spec u v Hbool) as Hdiv. unfold ring_mod in Hdiv.
  destruct (ring_divmod u v) as [quotient rest]. simpl in Hdiv.
  apply IH; [exact Hv|].
  transitivity (ring_add (ring_add (ring_mul quotient v) rest)
                         (ring_neg (ring_mul quotient v))); [|ring].
  rewrite <- Hdiv, <- Hu, <- Hv. ring.
Qed.

Lemma extended_euclidean_algorithm_bezout (measure : T → nat) :
  Bezout (extended_euclidean_algorithm measure).
Proof.
  intros a b. unfold extended_euclidean_algorithm.
  apply (eea_loop_bezout _ a b); ring.
Qed.

(** Where every division decreases the measure of the divisor, passes
    beyond that measure are never used: the loop has ended on its test. *)
Lemma eea_loop_stable (measure : T → nat) :
  (∀ u v, ring_bool v = true → (measure (ring_mod u v) < measure v)%nat) →
  ∀ passes extra u v x last_x y last_y,
    (measure v < passes)%nat →
    eea_loop (passes + extra) u v x last_x y last_y =
    eea_loop passes u v x last_x y last_y.
Proof.
  intros Hdec passes extra. induction passes as [|n IH];
    intros u v x last_x y last_y Hlt; [lia|]. simpl.
  destruct (ring_bool v) eqn:Hbool; [|reflexivity].
  specialize (Hdec u v Hbool). unfold ring_mod in Hdec.
  destruct (ring_divmod u v) as [quotient rest]. simpl in Hdec.
  apply IH. lia.
Qed.
End EuclidFacts.

Lemma Integers_eea_bezout : Bezout Integers_eea.
Proof. apply extended_euclidean_algorithm_bezout. Qed.

Lemma Integers_measure_decreases (u v : Z) :
  @ring_bool Z Integers v = true →
  (Z.abs_nat (ring_mod (R := Integers) u v) < Z.abs_nat v)%nat.
Proof.
  intros Hv%Integers_bool_nonzero. unfold ring_mod. simpl.
  destruct (Z_lt_le_dec 0 v).
  - pose proof (Z.mod_pos_bound u v). lia.
  - pose proof (Z.mod_neg_bound u v). lia.
Qed.

(** At the integers the passes of [Integers_eea] are enough. *)
Lemma Integers_eea_enough (extra : nat) (a b : Z) :
  eea_loop (R := Integers) (S (Z.abs_nat b) + extra) a b 0 1 1 0 = Integers_eea a b.
Proof.
  apply (eea_loop_stable Z.abs_nat Integers_measure_decreases). lia.
Qed.

(** ** Quotient rings: reduction, the homomorphism, inversion *)

Section QuotientClaims.
Context {T : Type} {R : RingCapability T} {E : EuclideanRing R}.
Context (modulus : T) (eea : T → T → T * T * T).
Hypothesis modulus_nonzero : ring_bool modulus = true.
Add Ring source_ring_quotient : ring_laws.

Implicit Types (x y : T) (a b u : QuotientRing.t T).

(** A remainder differs from the dividend by a multiple of the modulus. *)
Lemma ring_mod_decompose x :
  ring_mod x modulus =
  ring_add x (ring_mul (ring_neg (ring_divmod x modulus).1) modulus).
Proof.
  pose proof (ring_divmod_spec x modulus modulus_nonzero) as H.
  set (quotient := (ring_divmod x modulus).1) in *.
  set (rest := ring_mod x modulus) in *.
  transitivity (ring_add (ring_add (ring_mul quotient modulus) rest)
                         (ring_mul (ring_neg quotient) modulus)); [ring|].
  by rewrite <- H.
Qed.

Lemma ring_mod_idempotent x :
  ring_mod (ring_mod x modulus) modulus = ring_mod x modulus.
Proof.
  rewrite (ring_mod_decompose x) at 1. by apply ring_mod_canonical.
Qed.

Lemma ring_mod_add x y :
  ring_mod (ring_add (ring_mod x modulus) (ring_mod y modulus)) modulus =
  ring_mod (ring_add x y) modulus.
Proof.
  rewrite (ring_mod_decompose x), (ring_mod_decompose y).
  set (kx := ring_neg (ring_divmod x modulus).1).
  set (ky := ring_neg (ring_divmod y modulus).1).
  rewrite <- (ring_mod_canonical (ring_add x y) (ring_add kx ky) modulus modulus_nonzero).
  f_equal. ring.
Qed.

Lemma ring_mod_mul x y :
  ring_mod (ring_mul (ring_mod x modulus) (ring_mod y modulus)) modulus =
  ring_mod (ring_mul x y) modulus.
Proof.
  rewrite (ring_mod_decompose x), (ring_mod_decompose y).
  set (kx := ring_neg (ring_divmod x modulus).1).
  set (ky := ring_neg (ring_divmod y modulus).1).
  rewrite <- (ring_mod_canonical (ring_mul x y)
    (ring_add (ring_add (ring_mul x ky) (ring_mul kx y))
              (ring_mul (ring_mul kx ky) modulus))
    modulus modulus_nonzero).
  f_equal. ring.
Qed.

Lemma ring_eq_refl x : ring_eq x x = true.
Proof. by apply ring_eq_spec. Qed.

Lemma init_source_reduced x :
  returns_reduced modulus (QuotientRing.init modulus (QuotientRing.Source x)).
Proof.
  eexists. split; [reflexivity|]. unfold reduced. simpl. apply ring_mod_idempotent.
Qed.

Lemma inverse_reduced a :
  reduced_if_returned modulus (QuotientRing.multiplicative_inverse modulus eea a).
Proof.
  intros e. unfold QuotientRing.multiplicative_inverse.
  destruct (negb _); [done|].
  destruct (eea _ _) as [[inverse ignore] gcd].
  destruct (ring_eq gcd ring_one); [|done].
  destruct (init_source_reduced inverse) as (e' & -> & He'). by intros [= <-].
Qed.

(** C4. Every element a call produces stores a reduced remainder: the
    constructor (from a reduced element, from a source ring element [x],
    whose class gets the remainder [x % modulus], and from a raw input),
    [add], [neg], [mul], both divisions, [multiplicative_inverse], [zero]
    and [one]. *)
Theorem remainders_stay_reduced x (c : ring_raw) a b :
  reduced modulus a →
  returns_reduced modulus (QuotientRing.init modulus (QuotientRing.Element a)) ∧
  QuotientRing.init modulus (QuotientRing.Source x) =
    Return (QuotientRing.mk (ring_mod x modulus)) ∧
  returns_reduced modulus (QuotientRing.init modulus (QuotientRing.Source x)) ∧
  reduced_if_returned modulus (QuotientRing.init modulus (QuotientRing.Raw c)) ∧
  returns_reduced modulus (QuotientRing.add modulus a b) ∧
  returns_reduced modulus (QuotientRing.neg modulus a) ∧
  returns_reduced modulus (QuotientRing.mul modulus a b) ∧
  reduced_if_returned modulus (QuotientRing.truediv modulus eea a b) ∧
  reduced_if_returned modulus (QuotientRing.rtruediv modulus eea a b) ∧
  reduced_if_returned modulus (QuotientRing.multiplicative_inverse modulus eea a) ∧
  returns_reduced modulus (QuotientRing.zero modulus) ∧
  returns_reduced modulus (QuotientRing.one modulus).
Proof.
  intros Ha. repeat split; try apply init_source_reduced.
  - eexists. split; [reflexivity|]. exact Ha.
  - intros e. simpl. destruct (ring_call c) as [x'|]; [|done]. simpl.
    intros [= <-]. apply ring_mod_idempotent.
  - intros e. unfold QuotientRing.truediv.
    destruct (QuotientRing.multiplicative_inverse modulus eea b) as [inverse|]; [|done].
    simpl. intros [= <-]. apply ring_mod_idempotent.
  - intros e. unfold QuotientRing.rtruediv.
    destruct (QuotientRing.multiplicative_inverse modulus eea a) as [inverse|]; [|done].
    simpl. intros [= <-]. apply ring_mod_idempotent.
  - apply inverse_reduced.
Qed.

(** C5. Taking classes is a ring homomorphism: [[x] + [y] == [x + y]] and
    [[x] * [y] == [x * y]]; in Z/4Z, [[1] + [3] == [0]] and
    [[2] * [2] == [0]]. *)
Theorem classes_are_homomorphic x y :
  (cx ← QuotientRing.init modulus (QuotientRing.Source x);
   cy ← QuotientRing.init modulus (QuotientRing.Source y);
   sum ← QuotientRing.add modulus cx cy;
   expected ← QuotientRing.init modulus (QuotientRing.Source (ring_add x y));
   Return (QuotientRing.eq sum expected)) = Return true ∧
  (cx ← QuotientRing.init modulus (QuotientRing.Source x);
   cy ← QuotientRing.init modulus (QuotientRing.Source y);
   product ← QuotientRing.mul modulus cx cy;
   expected ← QuotientRing.init modulus (QuotientRing.Source (ring_mul x y));
   Return (QuotientRing.eq product expected)) = Return true ∧
  (c1 ← QuotientRing.init (R := Integers) 4 (QuotientRing.Source 1);
   c3 ← QuotientRing.init (R := Integers) 4 (QuotientRing.Source 3);
   sum ← QuotientRing.add 4 c1 c3;
   c0 ← QuotientRing.init (R := Integers) 4 (QuotientRing.Source 0);
   Return (QuotientRing.eq sum c0)) = Return true ∧
  (c2 ← QuotientRing.init (R := Integers) 4 (QuotientRing.Source 2);
   product ← QuotientRing.mul 4 c2 c2;
   c0 ← QuotientRing.init (R := Integers) 4 (QuotientRing.Source 0);
   Return (QuotientRing.eq product c0)) = Return true.
Proof.
  repeat split; simpl; unfold QuotientRing.eq; simpl; f_equal.
  - rewrite ring_mod_add. apply ring_eq_refl.
  - rewrite ring_mod_mul. apply ring_eq_refl.
Qed.

Hypothesis eea_bezout : Bezout eea.

(** The product of a remainder with the class of its Bezout coefficient is
    the class of the gcd. *)
Lemma ring_mod_bezout x :
  ring_mod (ring_mul x (ring_mod (eea x modulus).1.1 modulus)) modulus =
  ring_mod (eea x modulus).2 modulus.
Proof.
  pose proof (eea_bezout x modulus) as H.
  destruct (eea x modulus) as [[inverse other] gcd]. simpl in *.
  rewrite (ring_mod_decompose inverse).
  set (k := ring_neg (ring_divmod inverse modulus).1).
  rewrite <- H.
  rewrite <- (ring_mod_canonical
    (ring_mul x (ring_add inverse (ring_mul k modulus)))
    (ring_add other (ring_neg (ring_mul x k))) modulus modulus_nonzero).
  f_equal. ring.
Qed.

(** A non-zero element whose gcd with the modulus is the one, times the
    class of its Bezout coefficient, equals [one()]. *)
Lemma unit_times_inverse u (inverse ignore gcd : T) :
  eea (QuotientRing.remainder u) modulus = (inverse, ignore, gcd) →
  ring_bool (QuotientRing.remainder u) = true →
  ring_eq gcd ring_one = true →
  (v ← QuotientRing.multiplicative_inverse modulus eea u;
   product ← QuotientRing.mul modulus u v;
   one ← QuotientRing.one modulus;
   Return (QuotientRing.eq product one)) = Return true.
Proof.
  intros Heea Hnonzero Hone.
  pose proof (ring_mod_bezout (QuotientRing.remainder u)) as Hbez.
  unfold QuotientRing.multiplicative_inverse.
  rewrite Heea in *. rewrite Hnonzero, Hone. simpl in *.
  unfold QuotientRing.eq. simpl. rewrite Hbez.
  apply ring_eq_spec in Hone as ->. by rewrite ring_eq_refl.
Qed.
End QuotientClaims.

(** C1. With [(inverse, _, gcd)] the result of the extended Euclidean
    algorithm on the stored remainder and the modulus: if the remainder is
    non-zero and [gcd == one], [multiplicative_inverse] returns the class of
    [inverse], and (the source ring being a Euclidean ring, the modulus not
    zero, the algorithm keeping its Bezout contract) the element times it
    equals [one()]; the call raises, and then [ZeroDivisionError], exactly
    when the remainder is zero or [gcd] is not the one; in Z/4Z the class of
    [2] raises. *)
Theorem inverse_exists_iff_gcd_is_one
    {T : Type} {R : RingCapability T} (modulus : T) (eea : T → T → T * T * T)
    (u : QuotientRing.t T) (inverse ignore gcd : T) :
  eea (QuotientRing.remainder u) modulus = (inverse, ignore, gcd) →
  (ring_bool (QuotientRing.remainder u) = true →
   ring_eq gcd ring_one = true →
   QuotientRing.multiplicative_inverse modulus eea u =
     Return (QuotientRing.mk (ring_mod inverse modulus)) ∧
   (EuclideanRing R → ring_bool modulus = true → Bezout eea →
    (v ← QuotientRing.multiplicative_inverse modulus eea u;
     product ← QuotientRing.mul modulus u v;
     one ← QuotientRing.one modulus;
     Return (QuotientRing.eq product one)) = Return true)) ∧
  (QuotientRing.multiplicative_inverse modulus eea u = Raise ZeroDivisionError ↔
   ring_bool (QuotientRing.remainder u) = false ∨ ring_eq gcd ring_one = false) ∧
  (∀ e, QuotientRing.multiplicative_inverse modulus eea u = Raise e →
        e = ZeroDivisionError) ∧
  (c2 ← QuotientRing.init (R := Integers) 4 (QuotientRing.Source 2);
   QuotientRing.multiplicative_inverse 4 Integers_eea c2) = Raise ZeroDivisionError.
Proof.
  intros Heea. split; [|split; [|split; [|reflexivity]]].
  - intros Hnonzero Hone. split.
    + unfold QuotientRing.multiplicative_inverse.
      by rewrite Heea, Hnonzero, Hone.
    + intros E Hmodulus Hbezout. by eapply unit_times_inverse.
  - unfold QuotientRing.multiplicative_inverse. rewrite Heea.
    destruct (ring_bool (QuotientRing.remainder u)); simpl.
    + destruct (ring_eq gcd ring_one); simpl.
      * split; [done | by intros [?|?]].
      * split; [by right | done].
    + split; [by left | done].
  - intros e. unfold QuotientRing.multiplicative_inverse. rewrite Heea.
    destruct (ring_bool (QuotientRing.remainder u)); simpl;
      [|by intros [= <-]].
    destruct (ring_eq gcd ring_one); simpl; [done | by intros [= <-]].
Qed.

(** ** Polynomials on the store: what is written, and where *)

Section ListStoreFacts.
Context {T : Type} {R : RingCapability T}.
Implicit Types (σ : gmap positive (list T)) (ℓ src : positive) (l p q result : list T).

Lemma fresh_unused {V : Type} (σ : gmap positive V) : σ !! fresh (dom σ) = None.
Proof. apply not_elem_of_dom, is_fresh. Qed.

Lemma remove_leading_zeros_pop zero l :
  ListPolynomial.has_leading_zero zero l = true →
  ListPolynomial.remove_leading_zeros zero l =
  ListPolynomial.remove_leading_zeros zero (removelast l).
Proof.
  destruct l as [|c l' _] using rev_ind; [done|]. intros Hz.
  rewrite remove_leading_zeros_snoc, <- has_leading_zero_snoc, Hz.
  by rewrite removelast_last.
Qed.

Lemma remove_leading_zeros_done zero l :
  ListPolynomial.has_leading_zero zero l = false →
  ListPolynomial.remove_leading_zeros zero l = l.
Proof.
  destruct l as [|c l' _] using rev_ind; [done|]. intros Hz.
  by rewrite remove_leading_zeros_snoc, <- has_leading_zero_snoc, Hz.
Qed.

(** The loop on the store pops the list at [ℓ] down to what the loop on
    values returns, and touches nothing else. *)
Lemma store_remove_leading_zeros passes zero ℓ σ l :
  σ !! ℓ = Some l →
  (length l < passes)%nat →
  ListStore.remove_leading_zeros passes zero ℓ σ =
  Some (<[ℓ := ListPolynomial.remove_leading_zeros zero l]> σ).
Proof.
  revert σ l. induction passes as [|n IH]; intros σ l Hl Hlen; [lia|].
  simpl. rewrite Hl. simpl.
  destruct (ListPolynomial.has_leading_zero zero l) eqn:Hz.
  - pose proof (has_leading_zero_length _ _ Hz) as Hlong.
    unfold ListStore.pop. rewrite Hl. simpl.
    destruct l as [|c l']; [simpl in Hlong; lia|]. simpl.
    rewrite (IH _ (removelast (c :: l'))).
    + by rewrite insert_insert_eq, <- remove_leading_zeros_pop.
    + apply lookup_insert_eq.
    + rewrite removelast_firstn_len, length_take. simpl in *. lia.
  - rewrite remove_leading_zeros_done by done. by rewrite insert_id.
Qed.

Lemma store_init zero ℓ σ l :
  σ !! ℓ = Some l →
  ListStore.init zero ℓ σ =
  Some (ListStore.mk zero ℓ,
        <[ℓ := ListPolynomial.coefficients (ListPolynomial.init zero l)]> σ).
Proof.
  intros Hl. unfold ListStore.init. rewrite Hl.
  cbn -[ListStore.remove_leading_zeros].
  rewrite (store_remove_leading_zeros _ _ _ _ l) by (done || lia). reflexivity.
Qed.

(** A freshly made list handed to the constructor. *)
Lemma store_init_new zero l σ :
  ListStore.init zero (fresh (dom σ)) (<[fresh (dom σ) := l]> σ) =
  Some (ListStore.mk zero (fresh (dom σ)),
        <[fresh (dom σ) := ListPolynomial.coefficients (ListPolynomial.init zero l)]> σ).
Proof.
  rewrite (store_init _ _ _ l) by apply lookup_insert_eq.
  by rewrite insert_insert_eq.
Qed.

Lemma store_add (a b : ListStore.obj T) σ p q :
  σ !! ListStore.coefficients a = Some p →
  σ !! ListStore.coefficients b = Some q →
  ListStore.add a b σ =
  Some (ListStore.mk (ListStore.zero_coefficient a) (fresh (dom σ)),
        <[fresh (dom σ) :=
            ListPolynomial.coefficients
              (ListPolynomial.add (ListPolynomial.mk (ListStore.zero_coefficient a) p)
                                  (ListPolynomial.mk (ListStore.zero_coefficient b) q))]> σ).
Proof.
  intros Hp Hq. unfold ListStore.add. rewrite Hp, Hq. simpl.
  apply store_init_new.
Qed.

Lemma store_neg (a : ListStore.obj T) σ p :
  σ !! ListStore.coefficients a = Some p →
  ListStore.neg a σ =
  Some (ListStore.mk (ListStore.zero_coefficient a) (fresh (dom σ)),
        <[fresh (dom σ) :=
            ListPolynomial.coefficients
              (ListPolynomial.neg (ListPolynomial.mk (ListStore.zero_coefficient a) p))]> σ).
Proof.
  intros Hp. unfold ListStore.neg. rewrite Hp. simpl. apply store_init_new.
Qed.

Lemma store_iadd_at ℓ k v σ result :
  σ !! ℓ = Some result →
  ListStore.iadd_at ℓ k v σ =
  match ListPolynomial.iadd_at result k v with
  | Return result' => Some (<[ℓ := result']> σ)
  | Raise _ => None
  end.
Proof.
  intros Hres. unfold ListStore.iadd_at, ListPolynomial.iadd_at.
  rewrite Hres. simpl. by destruct (result !! k).
Qed.

Lemma enumerate_lookup {A : Type} (l : list A) (i : nat) :
  ListPolynomial.enumerate l !! i = pair i <$> l !! i.
Proof.
  unfold ListPolynomial.enumerate. rewrite lookup_zip_with.
  destruct (l !! i) as [a|] eqn:Ha.
  - rewrite lookup_seq_lt by (by eapply lookup_lt_Some). reflexivity.
  - by destruct (seq 0 (length l) !! i).
Qed.

Lemma enumerate_drop_None {A : Type} (l : list A) (i : nat) :
  l !! i = None → drop i (ListPolynomial.enumerate l) = [].
Proof.
  intros H%lookup_ge_None. apply drop_ge. by rewrite length_enumerate.
Qed.

Lemma enumerate_drop_Some {A : Type} (l : list A) (i : nat) (a : A) :
  l !! i = Some a →
  drop i (ListPolynomial.enumerate l) = (i, a) :: drop (S i) (ListPolynomial.enumerate l).
Proof.
  intros H. apply drop_S. by rewrite enumerate_lookup, H.
Qed.

Lemma for_enumerate_step passes src i (body : nat → T → _ → option _) σ :
  ListStore.for_enumerate (S passes) src i body σ =
  l ← σ !! src;
  match l !! i with
  | None => Some σ
  | Some x => σ' ← body i x σ; ListStore.for_enumerate passes src (S i) body σ'
  end.
Proof. reflexivity. Qed.

(** The inner loop on the store, reading [q] at [src] pass by pass while
    writing the list at another address [ℓ], is the inner loop on values. *)
Lemma store_mul_inner ℓ src i x q passes j0 σ result :
  src ≠ ℓ →
  σ !! src = Some q →
  σ !! ℓ = Some result →
  (length q - j0 < passes)%nat →
  ListStore.for_enumerate passes src j0
    (fun j y => ListStore.iadd_at ℓ (i + j) (ring_mul x y)) σ =
  match ListPolynomial.mul_inner i x (drop j0 (ListPolynomial.enumerate q)) result with
  | Return result' => Some (<[ℓ := result']> σ)
  | Raise _ => None
  end.
Proof.
  intros Hne. revert j0 σ result.
  induction passes as [|n IH]; intros j0 σ result Hq Hres Hlen; [lia|].
  rewrite for_enumerate_step, Hq. cbn -[ListStore.for_enumerate].
  destruct (q !! j0) as [y|] eqn:Hy.
  - rewrite (enumerate_drop_Some _ _ _ Hy). cbn -[ListStore.for_enumerate].
    rewrite (store_iadd_at _ _ _ _ result) by done.
    destruct (ListPolynomial.iadd_at result (i + j0) (ring_mul x y)) as [result1|];
      [|done]. cbn -[ListStore.for_enumerate].
    rewrite (IH (S j0) _ result1).
    + destruct (ListPolynomial.mul_inner _ _ _ result1); [|done].
      by rewrite insert_insert_eq.
    + by rewrite lookup_insert_ne.
    + apply lookup_insert_eq.
    + apply lookup_lt_Some in Hy. lia.
  - rewrite (enumerate_drop_None _ _ Hy). simpl. by rewrite insert_id.
Qed.

(** So is the outer loop, whatever of [p] and [q] the two sources hold
    (they may be one list), as long as neither is the list written. *)
Lemma store_mul_outer ℓ src_p src_q p q passes i0 σ result :
  src_p ≠ ℓ →
  src_q ≠ ℓ →
  σ !! src_p = Some p →
  σ !! src_q = Some q →
  σ !! ℓ = Some result →
  (length p - i0 < passes)%nat →
  ListStore.for_enumerate passes src_p i0
    (fun i x =>
       ListStore.for_enumerate (S (length q)) src_q 0
         (fun j y => ListStore.iadd_at ℓ (i + j) (ring_mul x y))) σ =
  match ListPolynomial.mul_outer (drop i0 (ListPolynomial.enumerate p))
          (ListPolynomial.enumerate q) result with
  | Return result' => Some (<[ℓ := result']> σ)
  | Raise _ => None
  end.
Proof.
  intros Hp Hq. revert i0 σ result.
  induction passes as [|n IH]; intros i0 σ result Hsp Hsq Hres Hlen; [lia|].
  rewrite for_enumerate_step, Hsp. cbn -[ListStore.for_enumerate].
  destruct (p !! i0) as [x|] eqn:Hx.
  - rewrite (enumerate_drop_Some _ _ _ Hx). cbn -[ListStore.for_enumerate].
    rewrite (store_mul_inner ℓ src_q i0 x q _ 0 σ result) by (done || lia).
    rewrite drop_0.
    destruct (ListPolynomial.mul_inner i0 x _ result) as [result1|]; [|done].
    cbn -[ListStore.for_enumerate].
    rewrite (IH (S i0) _ result1).
    + destruct (ListPolynomial.mul_outer _ _ result1); [|done].
      by rewrite insert_insert_eq.
    + by rewrite lookup_insert_ne.
    + by rewrite lookup_insert_ne.
    + apply lookup_insert_eq.
    + apply lookup_lt_Some in Hx. lia.
  - rewrite (enumerate_drop_None _ _ Hx). simpl. by rewrite insert_id.
Qed.

Lemma store_mul (a b : ListStore.obj T) σ p q :
  σ !! ListStore.coefficients a = Some p →
  σ !! ListStore.coefficients b = Some q →
  ∃ product,
    ListPolynomial.mul (ListPolynomial.mk (ListStore.zero_coefficient a) p)
                       (ListPolynomial.mk (ListStore.zero_coefficient b) q) =
      Return product ∧
    ListStore.mul a b σ =
      Some (ListStore.mk (ListStore.zero_coefficient a) (fresh (dom σ)),
            <[fresh (dom σ) := ListPolynomial.coefficients product]> σ).
Proof.
  intros Hp Hq.
  set (va := ListPolynomial.mk (ListStore.zero_coefficient a) p).
  set (vb := ListPolynomial.mk (ListStore.zero_coefficient b) q).
  destruct (mul_returns_init va vb) as (result & Hresult & _ & Hmul).
  eexists. split; [exact Hmul|].
  unfold ListStore.mul. rewrite Hp, Hq. cbn -[ListStore.for_enumerate Z.to_nat].
  pose proof (fresh_unused σ) as Hfresh.
  set (ℓ := fresh (dom σ)) in *.
  assert (Hpℓ : ListStore.coefficients a ≠ ℓ) by congruence.
  assert (Hqℓ : ListStore.coefficients b ≠ ℓ) by congruence.
  rewrite (store_mul_outer ℓ _ _ p q _ 0 _
             (replicate (Z.to_nat (Z.of_nat (length p) - 1 + (Z.of_nat (length q) - 1) + 2))
                        (ListStore.zero_coefficient a)));
    [| done | done | by rewrite lookup_insert_ne | by rewrite lookup_insert_ne
     | apply lookup_insert_eq | lia].
  rewrite drop_0.
  unfold ListPolynomial.mul_result, ListPolynomial.degree in Hresult.
  simpl in Hresult. rewrite Hresult. cbn -[ListStore.init].
  rewrite insert_insert_eq. apply store_init_new.
Qed.
End ListStoreFacts.

(** ** Quotient ring elements on the store *)

Section ObjectStoreFacts.
Context {T : Type} {R : RingCapability T} (modulus : T).
Implicit Types (ς : gmap positive T) (u v : positive).

Lemma object_add u v ς (ru rv : T) :
  ς !! u = Some ru →
  ς !! v = Some rv →
  ∃ e,
    QuotientRing.add modulus (QuotientRing.mk ru) (QuotientRing.mk rv) = Return e ∧
    ObjectStore.add modulus u v ς =
      Some (fresh (dom ς), <[fresh (dom ς) := QuotientRing.remainder e]> ς).
Proof.
  intros Hu Hv. eexists. split; [reflexivity|].
  unfold ObjectStore.add. by rewrite Hu, Hv.
Qed.

Lemma object_neg u ς (ru : T) :
  ς !! u = Some ru →
  ∃ e,
    QuotientRing.neg modulus (QuotientRing.mk ru) = Return e ∧
    ObjectStore.neg modulus u ς =
      Some (fresh (dom ς), <[fresh (dom ς) := QuotientRing.remainder e]> ς).
Proof.
  intros Hu. eexists. split; [reflexivity|].
  unfold ObjectStore.neg. by rewrite Hu.
Qed.

Lemma object_mul u v ς (ru rv : T) :
  ς !! u = Some ru →
  ς !! v = Some rv →
  ∃ e,
    QuotientRing.mul modulus (QuotientRing.mk ru) (QuotientRing.mk rv) = Return e ∧
    ObjectStore.mul modulus u v ς =
      Some (fresh (dom ς), <[fresh (dom ς) := QuotientRing.remainder e]> ς).
Proof.
  intros Hu Hv. eexists. split; [reflexivity|].
  unfold ObjectStore.mul. by rewrite Hu, Hv.
Qed.
End ObjectStoreFacts.

(** ** No operation mutates its operands *)

Lemma insert_fresh_keeps {V O : Type} (at_ : O → positive)
    (σ : gmap positive V) (c : O) (x : V) :
  at_ c = fresh (dom σ) →
  returns_new_and_keeps at_ σ (Some (c, <[fresh (dom σ) := x]> σ)).
Proof.
  intros Hat. exists c, (<[fresh (dom σ) := x]> σ).
  split; [reflexivity|]. split.
  - rewrite Hat. apply fresh_unused.
  - intros ℓ v Hℓ. rewrite lookup_insert_ne; [done|].
    intros <-. by rewrite fresh_unused in Hℓ.
Qed.

(** C9. [add], [neg] and [mul] return a new object and leave the store as
    it was: on polynomials the result keeps a list at an address the store
    did not use, and every list of the store, those of [a] and [b] among
    them, is unchanged; on quotient ring elements the result is a new
    element, and every stored remainder is unchanged. *)
Theorem operations_never_mutate {T : Type} {R : RingCapability T}
    (σ : gmap positive (list T)) (a b : ListStore.obj T) (la lb : list T)
    (modulus : T) (ς : gmap positive T) (u v : positive) (ru rv : T) :
  σ !! ListStore.coefficients a = Some la →
  σ !! ListStore.coefficients b = Some lb →
  ς !! u = Some ru →
  ς !! v = Some rv →
  returns_new_and_keeps ListStore.coefficients σ (ListStore.add a b σ) ∧
  returns_new_and_keeps ListStore.coefficients σ (ListStore.neg a σ) ∧
  returns_new_and_keeps ListStore.coefficients σ (ListStore.mul a b σ) ∧
  returns_new_and_keeps id ς (ObjectStore.add modulus u v ς) ∧
  returns_new_and_keeps id ς (ObjectStore.neg modulus u ς) ∧
  returns_new_and_keeps id ς (ObjectStore.mul modulus u v ς).
Proof.
  intros Ha Hb Hu Hv. repeat split.
  - rewrite (store_add a b σ la lb Ha Hb). by apply insert_fresh_keeps.
  - rewrite (store_neg a σ la Ha). by apply insert_fresh_keeps.
  - destruct (store_mul a b σ la lb Ha Hb) as (product & _ & ->).
    by apply insert_fresh_keeps.
  - destruct (object_add modulus u v ς ru rv Hu Hv) as (e & _ & ->).
    by apply insert_fresh_keeps.
  - destruct (object_neg modulus u ς ru Hu) as (e & _ & ->).
    by apply insert_fresh_keeps.
  - destruct (object_mul modulus u v ς ru rv Hu Hv) as (e & _ & ->).
    by apply insert_fresh_keeps.
Qed.

(** ** The scenarios: concrete polynomials and residue classes *)

(** C1 at Z/5Z: the class of [3] has the inverse [[2]], and
    [[3] * [2] == one()]. *)
Lemma inverse_exists_iff_gcd_is_one_witness :
  Integers_eea 3 5 = (2, -1, 1) ∧
  QuotientRing.multiplicative_inverse 5 Integers_eea (QuotientRing.mk 3) =
    Return (QuotientRing.mk 2) ∧
  (v ← QuotientRing.multiplicative_inverse 5 Integers_eea (QuotientRing.mk 3);
   product ← QuotientRing.mul (R := Integers) 5 (QuotientRing.mk 3) v;
   one ← QuotientRing.one (R := Integers) 5;
   Return (QuotientRing.eq product one)) = Return true.
Proof.
  split; [reflexivity|].
  destruct (inverse_exists_iff_gcd_is_one (R := Integers) 5 Integers_eea
              (QuotientRing.mk 3) 2 (-1) 1 eq_refl) as [Hunit _].
  destruct (Hunit eq_refl eq_refl) as [Hinverse Hproduct].
  split; [exact Hinverse|].
  exact (Hproduct Integers_euclidean eq_refl Integers_eea_bezout).
Defined.

(** C3 does not hold of the constructor as it stands: [make()] returns a
    polynomial with no coefficient at all. *)
Lemma empty_polynomial_not_normalized :
  ∃ p, PolynomialRing.call (R := Integers) [] = Return p ∧ ¬ normalized p.
Proof.
  exists (ListPolynomial.mk 0 []). split; [reflexivity|].
  intros (c & Hc & _). simpl in Hc. discriminate Hc.
Qed.

Lemma nonempty_polynomials_normalized_witness :
  [0; 0; 0] ≠ [] ∧
  PolynomialRing.call (R := Integers) [5; 2; 1] = Return p521 ∧
  ListPolynomial.coefficients p521 ≠ [] ∧
  normalized (ListPolynomial.init (R := Integers) 0 [0; 0; 0]) ∧
  normalized p521 ∧
  normalized (ListPolynomial.add p521 p521) ∧
  normalized (ListPolynomial.neg p521) ∧
  (∃ product, ListPolynomial.mul p521 p521 = Return product ∧ normalized product).
Proof.
  assert (Hcs : [0; 0; 0] ≠ @nil Z) by discriminate.
  assert (Hraw : [5; 2; 1] ≠ @nil Z) by discriminate.
  assert (Hp : ListPolynomial.coefficients p521 ≠ []) by discriminate.
  destruct (nonempty_polynomials_normalized (R := Integers)
              0 [0; 0; 0] [5; 2; 1] p521 p521 p521 Hcs Hraw eq_refl Hp Hp)
    as (H1 & H2 & H3 & H4 & H5 & _).
  exact (conj Hcs (conj eq_refl (conj Hp (conj H1 (conj H2 (conj H3 (conj H4 H5))))))).
Defined.

(** C4 at Z/4Z. *)
Lemma remainders_stay_reduced_witness :
  @ring_bool Z Integers 4 = true ∧
  reduced (R := Integers) 4 (QuotientRing.mk 3) ∧
  QuotientRing.init (R := Integers) 4 (QuotientRing.Source 7) =
    Return (QuotientRing.mk 3) ∧
  returns_reduced 4 (QuotientRing.add (R := Integers) 4
                       (QuotientRing.mk 3) (QuotientRing.mk 2)) ∧
  reduced_if_returned 4 (QuotientRing.multiplicative_inverse (R := Integers) 4
                           Integers_eea (QuotientRing.mk 3)).
Proof.
  assert (Hreduced : reduced (R := Integers) 4 (QuotientRing.mk 3)) by reflexivity.
  destruct (remainders_stay_reduced (R := Integers) 4 Integers_eea eq_refl
              7 9 (QuotientRing.mk 3) (QuotientRing.mk 2) Hreduced)
    as (_ & Hsource & _ & _ & Hadd & _ & _ & _ & _ & Hinverse & _).
  exact (conj eq_refl (conj Hreduced (conj Hsource (conj Hadd Hinverse)))).
Defined.

(** C5 at Z/6Z, with [5] and [7]. *)
Lemma classes_are_homomorphic_witness :
  @ring_bool Z Integers 6 = true ∧
  (cx ← QuotientRing.init (R := Integers) 6 (QuotientRing.Source 5);
   cy ← QuotientRing.init (R := Integers) 6 (QuotientRing.Source 7);
   sum ← QuotientRing.add 6 cx cy;
   expected ← QuotientRing.init (R := Integers) 6 (QuotientRing.Source (5 + 7));
   Return (QuotientRing.eq sum expected)) = Return true ∧
  (cx ← QuotientRing.init (R := Integers) 6 (QuotientRing.Source 5);
   cy ← QuotientRing.init (R := Integers) 6 (QuotientRing.Source 7);
   product ← QuotientRing.mul 6 cx cy;
   expected ← QuotientRing.init (R := Integers) 6 (QuotientRing.Source (5 * 7));
   Return (QuotientRing.eq product expected)) = Return true.
Proof.
  split; [reflexivity|].
  destruct (classes_are_homomorphic (R := Integers) 6 eq_refl 5 7)
    as (Hadd & Hmul & _).
  split; assumption.
Defined.

(** C6 does not hold of the constructor as it stands: on the empty list it
    returns, it does not raise. *)
Lemma empty_coefficient_list_returns :
  PolynomialRing.call (R := Integers) [] = Return (ListPolynomial.mk 0 []) ∧
  ¬ ∃ e, PolynomialRing.call (R := Integers) [] = Raise e.
Proof. split; [reflexivity|]. intros [e He]. discriminate He. Qed.

(** C7 does not hold of [__getitem__] as it stands: index [3] of
    [make(5, 2, 1)], above the degree [2], is no zero but an [IndexError]. *)
Lemma getitem_above_degree_not_zero :
  ListPolynomial.degree p521 < 3 ∧
  ListPolynomial.getitem p521 3 = Raise IndexError ∧
  ListPolynomial.getitem p521 3 ≠ Return ring_zero.
Proof. split; [reflexivity|]. split; [reflexivity|discriminate]. Qed.

Lemma getitem_above_degree_raises_witness :
  ListPolynomial.degree p521 < 7 ∧
  ListPolynomial.getitem p521 7 = Raise IndexError.
Proof.
  assert (H : ListPolynomial.degree p521 < 7) by reflexivity.
  split; [exact H|]. exact (getitem_above_degree_raises p521 7 H).
Defined.

(** C9 on a store with the list of [make(5, 2, 1)] at address [1], and on a
    store with the class [2] of Z/4Z at address [1]. *)
Lemma operations_never_mutate_witness :
  let σ : gmap positive (list Z) := {[ 1%positive := [5; 2; 1] ]} in
  let ς : gmap positive Z := {[ 1%positive := 2 ]} in
  let a := ListStore.mk 0 1%positive in
  σ !! 1%positive = Some [5; 2; 1] ∧
  ς !! 1%positive = Some 2 ∧
  returns_new_and_keeps ListStore.coefficients σ (ListStore.add a a σ) ∧
  returns_new_and_keeps ListStore.coefficients σ (ListStore.neg a σ) ∧
  returns_new_and_keeps ListStore.coefficients σ (ListStore.mul a a σ) ∧
  returns_new_and_keeps id ς (ObjectStore.add 4 1%positive 1%positive ς) ∧
  returns_new_and_keeps id ς (ObjectStore.neg 4 1%positive ς) ∧
  returns_new_and_keeps id ς (ObjectStore.mul 4 1%positive 1%positive ς).
Proof.
  intros σ ς a.
  assert (Hσ : σ !! 1%positive = Some [5; 2; 1]) by reflexivity.
  assert (Hς : ς !! 1%positive = Some 2) by reflexivity.
  split; [exact Hσ|]. split; [exact Hς|].
  exact (operations_never_mutate (R := Integers) σ a a [5; 2; 1] [5; 2; 1]
           4 ς 1%positive 1%positive 2 2 Hσ Hσ Hς Hς).
Defined.

(** C10 at the integers, for [make(5, 2, 1)]. *)
Lemma mul_by_zero_polynomial_witness :
  (∀ x : Z, ring_mul x ring_zero = ring_zero) ∧
  (∀ x : Z, ring_add ring_zero x = x) ∧
  @ring_eq Z Integers ring_zero ring_zero = true ∧
  ListPolynomial.zero_coefficient p521 = ring_zero ∧
  (z ← PolynomialRing.call (R := Integers) [0];
   product ← ListPolynomial.mul p521 z;
   Return (ListPolynomial.coefficients product,
           ListPolynomial.degree product,
           ListPolynomial.eq product z)) = Return ([0], 0, true).
Proof.
  assert (Hmul : ∀ x : Z, ring_mul x ring_zero = ring_zero) by (intros x; simpl; lia).
  assert (Hadd : ∀ x : Z, ring_add ring_zero x = x) by (intros x; simpl; lia).
  split; [exact Hmul|]. split; [exact Hadd|].
  split; [reflexivity|]. split; [reflexivity|].
  exact (mul_by_zero_polynomial (R := Integers) p521 0 Hmul Hadd eq_refl eq_refl eq_refl).
Defined.

(** * Further properties of the two modules *)

(** ** Polynomials: padding, sums, equality, negation, the constructor *)

Section PolynomialFurther.
Context {T : Type} {R : RingCapability T}.
Implicit Types (zero pad c : T) (cs : list T) (a b p : ListPolynomial.t T).

Lemma pad_and_zip_lookup (l1 l2 : list T) pad (k : nat) :
  ListPolynomial.pad_and_zip l1 l2 pad !! k =
  if decide (k < Nat.max (length l1) (length l2))%nat
  then Some (default pad (l1 !! k), default pad (l2 !! k))
  else None.
Proof.
  unfold ListPolynomial.pad_and_zip. rewrite lookup_zip_with.
  assert (Hpad : ∀ l : list T,
    (l ++ replicate (Nat.max (length l1) (length l2) - length l) pad) !! k =
    if decide (k < Nat.max (length l1) (length l2) `max` length l)%nat
    then Some (default pad (l !! k)) else None).
  { intros l. destruct (decide (k < length l)%nat) as [Hk|Hk].
    - rewrite lookup_app_l by done. rewrite decide_True by lia.
      destruct (lookup_lt_is_Some_2 l k Hk) as [x ->]. reflexivity.
    - rewrite lookup_app_r by lia. rewrite (lookup_ge_None_2 l k) by lia. simpl.
      case_decide.
      + apply lookup_replicate_2. lia.
      + apply lookup_replicate_None. lia. }
  rewrite (Hpad l1), (Hpad l2).
  replace (Nat.max (length l1) (length l2) `max` length l1)%nat
    with (Nat.max (length l1) (length l2)) by lia.
  replace (Nat.max (length l1) (length l2) `max` length l2)%nat
    with (Nat.max (length l1) (length l2)) by lia.
  by case_decide.
Qed.

Lemma pad_and_zip_length (l1 l2 : list T) pad :
  length (ListPolynomial.pad_and_zip l1 l2 pad) = Nat.max (length l1) (length l2).
Proof.
  unfold ListPolynomial.pad_and_zip.
  rewrite length_zip_with, !length_app, !length_replicate. lia.
Qed.

(** X1. [__pad_and_zip] returns as many pairs as the longer list has
    elements, and pair [k] holds the two elements at [k], the padding
    element standing in where a list has ended. *)
Theorem pad_and_zip_pads_the_shorter (l1 l2 : list T) pad :
  length (ListPolynomial.pad_and_zip l1 l2 pad) = Nat.max (length l1) (length l2) ∧
  ∀ k : nat,
    ListPolynomial.pad_and_zip l1 l2 pad !! k =
    if decide (k < Nat.max (length l1) (length l2))%nat
    then Some (default pad (l1 !! k), default pad (l2 !! k))
    else None.
Proof. split; [apply pad_and_zip_length | apply pad_and_zip_lookup]. Qed.

Lemma remove_leading_zeros_length zero cs :
  (length (ListPolynomial.remove_leading_zeros zero cs) ≤ length cs)%nat.
Proof.
  induction cs as [|c cs IH] using rev_ind; [done|].
  rewrite remove_leading_zeros_snoc, length_app. simpl.
  destruct (bool_decide (cs ≠ []) && ring_eq c zero); [lia|].
  rewrite length_app. simpl. lia.
Qed.

(** The sums of [__add__] before normalization, slot by slot. *)
Lemma add_sums (l1 l2 : list T) zero :
  map (fun xy => ring_add xy.1 xy.2) (ListPolynomial.pad_and_zip l1 l2 zero) =
  map (fun k => ring_add (default zero (l1 !! k)) (default zero (l2 !! k)))
      (seq 0 (Nat.max (length l1) (length l2))).
Proof.
  apply list_eq. intros k. rewrite !list_lookup_fmap, pad_and_zip_lookup.
  case_decide.
  - by rewrite lookup_seq_lt.
  - by rewrite lookup_seq_ge by lia.
Qed.

(** X2. The sum of two polynomials is the normalized list of slotwise sums,
    a missing coefficient counting as the zero of the left operand; its
    degree is at most the larger of the two degrees. *)
Theorem add_is_slotwise a b :
  ListPolynomial.coefficients (ListPolynomial.add a b) =
    ListPolynomial.remove_leading_zeros (ListPolynomial.zero_coefficient a)
      (map (fun k =>
              ring_add
                (default (ListPolynomial.zero_coefficient a)
                         (ListPolynomial.coefficients a !! k))
                (default (ListPolynomial.zero_coefficient a)
                         (ListPolynomial.coefficients b !! k)))
           (seq 0 (Nat.max (length (ListPolynomial.coefficients a))
                           (length (ListPolynomial.coefficients b))))) ∧
  ListPolynomial.degree (ListPolynomial.add a b) ≤
    Z.max (ListPolynomial.degree a) (ListPolynomial.degree b).
Proof.
  unfold ListPolynomial.add, ListPolynomial.init. simpl. rewrite add_sums.
  split; [reflexivity|].
  unfold ListPolynomial.degree. simpl.
  pose proof (remove_leading_zeros_length (ListPolynomial.zero_coefficient a)
    (map (fun k =>
            ring_add
              (default (ListPolynomial.zero_coefficient a)
                       (ListPolynomial.coefficients a !! k))
              (default (ListPolynomial.zero_coefficient a)
                       (ListPolynomial.coefficients b !! k)))
         (seq 0 (Nat.max (length (ListPolynomial.coefficients a))
                         (length (ListPolynomial.coefficients b)))))) as H.
  rewrite length_map, length_seq in H. lia.
Qed.

Lemma polynomial_eq_refl p :
  (∀ x : T, ring_eq x x = true) → ListPolynomial.eq p p = true.
Proof.
  intros Hrefl. unfold ListPolynomial.eq. rewrite Z.eqb_refl. simpl.
  apply forallb_forall. intros [x y] Hxy%list_elem_of_In.
  apply elem_of_lookup_zip_with in Hxy as (k & x' & y' & [= <- <-] & Hx & Hy).
  unfold ring_ne. simpl. rewrite Hx in Hy. injection Hy as <-.
  by rewrite Hrefl.
Qed.

(** X3. Where addition in the coefficient ring commutes and [==] holds of
    every coefficient with itself, two polynomials with the same zero add to
    the same polynomial in either order. *)
Theorem add_commutes a b :
  (∀ x y : T, ring_add x y = ring_add y x) →
  (∀ x : T, ring_eq x x = true) →
  ListPolynomial.zero_coefficient a = ListPolynomial.zero_coefficient b →
  ListPolynomial.add a b = ListPolynomial.add b a ∧
  ListPolynomial.eq (ListPolynomial.add a b) (ListPolynomial.add b a) = true.
Proof.
  intros Hcomm Hrefl Hzero.
  assert (Heq : ListPolynomial.add a b = ListPolynomial.add b a).
  { unfold ListPolynomial.add. rewrite !add_sums, <- Hzero. f_equal.
    rewrite (Nat.max_comm (length (ListPolynomial.coefficients b))).
    apply map_ext. intros k. apply Hcomm. }
  split; [exact Heq|]. rewrite Heq. by apply polynomial_eq_refl.
Qed.

Lemma remove_leading_zeros_trailing zero cs (n : nat) :
  cs ≠ [] →
  ring_eq zero zero = true →
  ListPolynomial.remove_leading_zeros zero (cs ++ replicate n zero) =
  ListPolynomial.remove_leading_zeros zero cs.
Proof.
  intros Hcs Hz. induction n as [|n IH]; [by rewrite app_nil_r|].
  rewrite replicate_S_end, app_assoc, remove_leading_zeros_snoc, Hz, andb_true_r.
  rewrite bool_decide_eq_true_2; [exact IH|]. by destruct cs.
Qed.

(** X4. Normalizing is idempotent, and zeros appended to a coefficient list
    that is not empty do not change the polynomial built from it: same
    coefficients, same degree. *)
Theorem trailing_zeros_are_dropped zero cs (n : nat) :
  cs ≠ [] →
  ring_eq zero zero = true →
  ListPolynomial.init zero (cs ++ replicate n zero) = ListPolynomial.init zero cs ∧
  ListPolynomial.degree (ListPolynomial.init zero (cs ++ replicate n zero)) =
    ListPolynomial.degree (ListPolynomial.init zero cs) ∧
  ListPolynomial.init zero (ListPolynomial.coefficients (ListPolynomial.init zero cs)) =
    ListPolynomial.init zero cs.
Proof.
  intros Hcs Hz. unfold ListPolynomial.init, ListPolynomial.degree. simpl.
  rewrite remove_leading_zeros_trailing by done.
  split; [reflexivity|]. split; [reflexivity|]. f_equal.
  apply remove_leading_zeros_done, remove_leading_zeros_stable.
Qed.

Lemma forallb_zip_Forall2 (f : T → T → bool) (l1 l2 : list T) :
  length l1 = length l2 →
  forallb (fun xy => f xy.1 xy.2) (zip l1 l2) = true ↔
  Forall2 (fun x y => f x y = true) l1 l2.
Proof.
  revert l2. induction l1 as [|x l1 IH]; intros [|y l2] Hlen; simpl in *; try lia.
  - split; [constructor|done].
  - rewrite andb_true_iff, IH by lia. split.
    + intros [? ?]. by constructor.
    + intros H. by apply Forall2_cons_1 in H.
Qed.

Lemma forallb_not_ne (l : list (T * T)) :
  forallb (fun xy => negb (ring_ne xy.1 xy.2)) l =
  forallb (fun xy => ring_eq xy.1 xy.2) l.
Proof.
  induction l as [|[x y] l IH]; [done|]. simpl.
  unfold ring_ne at 1. by rewrite negb_involutive, IH.
Qed.

(** X5. [__eq__] returns [True] exactly when the two coefficient lists have
    the same length and [==] holds of the coefficients slot by slot; the
    stored zeros are not compared. *)
Theorem polynomial_eq_is_slotwise a b :
  ListPolynomial.eq a b = true ↔
  Forall2 (fun x y => ring_eq x y = true)
          (ListPolynomial.coefficients a) (ListPolynomial.coefficients b).
Proof.
  unfold ListPolynomial.eq, ListPolynomial.degree.
  destruct (decide (length (ListPolynomial.coefficients a) =
                    length (ListPolynomial.coefficients b))) as [Hlen|Hlen].
  - rewrite (proj2 (Z.eqb_eq _ _)) by lia. simpl.
    by rewrite forallb_not_ne, <- (forallb_zip_Forall2 ring_eq).
  - rewrite (proj2 (Z.eqb_neq _ _)) by lia. simpl. split; [done|].
    intros H%Forall2_length. done.
Qed.

Lemma remove_leading_zeros_map_neg zero cs :
  (∀ c, ring_eq (ring_neg c) zero = ring_eq c zero) →
  ListPolynomial.remove_leading_zeros zero (map ring_neg cs) =
  map ring_neg (ListPolynomial.remove_leading_zeros zero cs).
Proof.
  intros Hneg. induction cs as [|c cs IH] using rev_ind; [done|].
  rewrite map_app. simpl. rewrite !remove_leading_zeros_snoc, Hneg.
  assert (Hne : bool_decide (map ring_neg cs ≠ []) = bool_decide (cs ≠ []))
    by (by destruct cs).
  rewrite Hne. destruct (bool_decide (cs ≠ []) && ring_eq c zero); [exact IH|].
  by rewrite map_app.
Qed.

(** X6. Where negation keeps the zero test of every coefficient, negating
    a polynomial the constructor built negates its coefficients slot by
    slot and drops none: the degree is the same. *)
Theorem neg_is_slotwise zero cs :
  (∀ c, ring_eq (ring_neg c) zero = ring_eq c zero) →
  ListPolynomial.coefficients (ListPolynomial.neg (ListPolynomial.init zero cs)) =
    map ring_neg (ListPolynomial.coefficients (ListPolynomial.init zero cs)) ∧
  ListPolynomial.degree (ListPolynomial.neg (ListPolynomial.init zero cs)) =
    ListPolynomial.degree (ListPolynomial.init zero cs).
Proof.
  intros Hneg. unfold ListPolynomial.neg, ListPolynomial.init, ListPolynomial.degree.
  simpl. rewrite remove_leading_zeros_map_neg by done.
  rewrite (remove_leading_zeros_done zero
             (ListPolynomial.remove_leading_zeros zero cs))
    by apply remove_leading_zeros_stable.
  split; [reflexivity|]. by rewrite length_map.
Qed.
End PolynomialFurther.

(** ** Polynomials: indexing, degrees of products, neutral elements *)

Section PolynomialProducts.
Context {T : Type} {R : RingCapability T}.
Implicit Types (zero c : T) (cs : list T) (a b p : ListPolynomial.t T).

(** X7. [__getitem__] follows Python's list indexing: it raises
    [IndexError] exactly for an index below [-(degree + 1)] or above the
    degree, and otherwise returns the coefficient at the index taken modulo
    the number of coefficients, so that [-1] is the leading coefficient. *)
Theorem getitem_follows_list_indexing p (index : Z) :
  (ListPolynomial.getitem p index = Raise IndexError ↔
   index < - (ListPolynomial.degree p + 1) ∨ ListPolynomial.degree p < index) ∧
  ∀ c, ListPolynomial.getitem p index = Return c ↔
       - (ListPolynomial.degree p + 1) ≤ index ≤ ListPolynomial.degree p ∧
       ListPolynomial.coefficients p
         !! Z.to_nat (index mod (ListPolynomial.degree p + 1)) = Some c.
Proof.
  unfold ListPolynomial.getitem, ListPolynomial.list_getitem, ListPolynomial.degree.
  set (l := ListPolynomial.coefficients p).
  replace (Z.of_nat (length l) - 1 + 1) with (Z.of_nat (length l)) by lia.
  destruct (Z.ltb_spec index 0) as [Hneg|Hpos].
  - destruct (Z.leb_spec 0 (index + Z.of_nat (length l))) as [Hlow|Hlow]; simpl.
    + rewrite (proj2 (Z.ltb_lt _ _)) by lia.
      replace (index mod Z.of_nat (length l)) with (index + Z.of_nat (length l))
        by (apply Z.mod_unique with (-1); lia).
      destruct (lookup_lt_is_Some_2 l (Z.to_nat (index + Z.of_nat (length l))))
        as [c' Hc']; [lia|]. rewrite Hc'. split.
      * split; [done|lia].
      * intros c. split; [intros [= <-]; split; [lia|done] | by intros [_ [= <-]]].
    + split; [split; [lia|done]|]. intros c. split; [done|lia].
  - rewrite (proj2 (Z.leb_le 0 index)) by lia. simpl.
    destruct (Z.ltb_spec index (Z.of_nat (length l))) as [Hhigh|Hhigh].
    + rewrite Z.mod_small by lia.
      destruct (lookup_lt_is_Some_2 l (Z.to_nat index)) as [c' Hc']; [lia|].
      rewrite Hc'. split.
      * split; [done|lia].
      * intros c. split; [intros [= <-]; split; [lia|done] | by intros [_ [= <-]]].
    + split; [split; [lia|done]|]. intros c. split; [done|lia].
Qed.

Lemma omap_seq_single {B : Type} (f : nat → option B) (n i0 : nat) (v : B) :
  (i0 < n)%nat →
  f i0 = Some v →
  (∀ i, (i < n)%nat → i ≠ i0 → f i = None) →
  omap f (seq 0 n) = [v].
Proof.
  intros Hlt Hv Hnone. revert Hnone.
  replace n with (i0 + S (n - S i0))%nat by lia. intros Hnone.
  rewrite seq_app. simpl. rewrite omap_app. simpl. rewrite Hv.
  rewrite !omap_none; [done| |].
  - intros i Hi. apply list_elem_of_lookup in Hi as [j Hj].
    apply lookup_seq in Hj as [-> ?]. apply Hnone; lia.
  - intros i Hi. apply list_elem_of_lookup in Hi as [j Hj].
    apply lookup_seq in Hj as [-> ?]. apply Hnone; lia.
Qed.

(** The two highest slots of a product: the very last is an empty sum, the
    one below it the product of the two leading coefficients alone. *)
Lemma convolution_slot_beyond zero (pa pb : list T) (la lb : T) :
  convolution_slot zero (pa ++ [la]) (pb ++ [lb]) (S (length pa + length pb)) = zero.
Proof.
  unfold convolution_slot. rewrite omap_none; [done|].
  intros i Hi. apply list_elem_of_lookup in Hi as [j Hj].
  apply lookup_seq in Hj as [-> _]. simpl.
  destruct (decide (j ≤ length pa)%nat).
  - destruct ((pa ++ [la]) !! j); [|done]. simpl.
    rewrite lookup_ge_None_2; [done|]. rewrite length_app. simpl. lia.
  - rewrite (lookup_ge_None_2 (pa ++ [la]) j); [done|].
    rewrite length_app. simpl. lia.
Qed.

Lemma convolution_slot_leading zero (pa pb : list T) (la lb : T) :
  convolution_slot zero (pa ++ [la]) (pb ++ [lb]) (length pa + length pb) =
  ring_add zero (ring_mul la lb).
Proof.
  unfold convolution_slot.
  rewrite (omap_seq_single _ _ (length pa) (ring_mul la lb)); [done|lia| |].
  - rewrite (list_lookup_middle pa [] la _ eq_refl). simpl.
    replace (length pa + length pb - length pa)%nat with (length pb) by lia.
    by rewrite (list_lookup_middle pb [] lb _ eq_refl).
  - intros i Hlt Hi. destruct (decide (i < length pa)%nat).
    + destruct ((pa ++ [la]) !! i); [|done]. simpl.
      rewrite lookup_ge_None_2; [done|]. rewrite length_app. simpl. lia.
    + rewrite (lookup_ge_None_2 (pa ++ [la]) i); [done|].
      rewrite length_app. simpl. lia.
Qed.

(** X8. If the product of the two leading coefficients (added onto the
    zero, as the loops do) is not the zero, and the zero equals itself, the
    degree of a product is the sum of the degrees and its leading
    coefficient is that product. *)
Theorem degree_of_product_is_sum a b (la lb : T) :
  last (ListPolynomial.coefficients a) = Some la →
  last (ListPolynomial.coefficients b) = Some lb →
  ring_eq (ListPolynomial.zero_coefficient a) (ListPolynomial.zero_coefficient a) = true →
  ring_eq (ring_add (ListPolynomial.zero_coefficient a) (ring_mul la lb))
          (ListPolynomial.zero_coefficient a) = false →
  ∃ product,
    ListPolynomial.mul a b = Return product ∧
    ListPolynomial.degree product = ListPolynomial.degree a + ListPolynomial.degree b ∧
    last (ListPolynomial.coefficients product) =
      Some (ring_add (ListPolynomial.zero_coefficient a) (ring_mul la lb)).
Proof.
  destruct a as [zero ca], b as [zero' cb]. simpl.
  intros [pa ->]%last_Some [pb ->]%last_Some Hzero Hlead.
  unfold ListPolynomial.mul. rewrite mul_result_convolution. simpl.
  eexists. split; [reflexivity|].
  rewrite !length_app. simpl.
  replace (length pa + 1 + (length pb + 1))%nat
    with (S (S (length pa + length pb))) by lia.
  rewrite !seq_S, !map_app. simpl.
  rewrite convolution_slot_beyond, convolution_slot_leading.
  unfold ListPolynomial.init, ListPolynomial.degree. simpl.
  rewrite remove_leading_zeros_snoc, Hzero, andb_true_r.
  rewrite bool_decide_eq_true_2
    by (by destruct (map _ (seq 0 (length pa + length pb)))).
  rewrite remove_leading_zeros_snoc, Hlead, andb_false_r.
  split; [|apply last_snoc].
  rewrite !length_app, length_map, length_seq. simpl. lia.
Qed.

(** X9. Adding [make(0)] to a polynomial the constructor built from a list
    that is not empty returns that polynomial, where [x + zero] is [x] in
    the coefficient ring. *)
Theorem add_zero_polynomial zero cs :
  cs ≠ [] →
  (∀ x, ring_add x zero = x) →
  ListPolynomial.add (ListPolynomial.init zero cs) (ListPolynomial.init zero [zero]) =
  ListPolynomial.init zero cs.
Proof.
  intros Hcs Hadd. unfold ListPolynomial.add. rewrite add_sums.
  change (ListPolynomial.init zero [zero]) with (ListPolynomial.mk zero [zero]).
  unfold ListPolynomial.init at 2 3 4 5. simpl.
  set (l := ListPolynomial.remove_leading_zeros zero cs).
  assert (Hl : l ≠ []) by (by apply remove_leading_zeros_nonempty).
  assert (Hsums :
    map (fun k => ring_add (default zero (l !! k)) (default zero ([zero] !! k)))
        (seq 0 (length l `max` 1)) = l).
  { apply list_eq. intros k. rewrite list_lookup_fmap.
    destruct (decide (k < length l)%nat) as [Hk|Hk].
    - rewrite lookup_seq_lt by lia. simpl.
      destruct (lookup_lt_is_Some_2 l k Hk) as [x Hx]. rewrite Hx. simpl.
      destruct k; simpl; by rewrite Hadd.
    - rewrite lookup_seq_ge, lookup_ge_None_2; [done|lia|].
      destruct l; [done|]. simpl in *. lia. }
  rewrite Hsums. unfold ListPolynomial.init. f_equal.
  apply remove_leading_zeros_done, remove_leading_zeros_stable.
Qed.

(** X10. Multiplying a polynomial the constructor built from a list that is
    not empty by [make(1)] returns that polynomial, where [x * one] is [x],
    [zero + x] is [x] and the zero equals itself in the coefficient ring. *)
Theorem mul_one_polynomial zero cs :
  cs ≠ [] →
  (∀ x, ring_mul x ring_one = x) →
  (∀ x, ring_add zero x = x) →
  ring_eq zero zero = true →
  ListPolynomial.mul (ListPolynomial.init zero cs) (ListPolynomial.init zero [ring_one]) =
  Return (ListPolynomial.init zero cs).
Proof.
  intros Hcs Hmul Hadd Hzero. unfold ListPolynomial.mul.
  rewrite mul_result_convolution.
  change (ListPolynomial.init zero [ring_one]) with (ListPolynomial.mk zero [ring_one]).
  unfold ListPolynomial.init at 1 2 3 4. simpl.
  set (l := ListPolynomial.remove_leading_zeros zero cs).
  assert (Hl : l ≠ []) by (by apply remove_leading_zeros_nonempty).
  replace (length l + 1)%nat with (S (length l)) by lia.
  rewrite seq_S, map_app. simpl.
  assert (Hlast : convolution_slot zero l [ring_one] (length l) = zero).
  { unfold convolution_slot. rewrite omap_none; [done|].
    intros i Hi. apply list_elem_of_lookup in Hi as [j Hj].
    apply lookup_seq in Hj as [-> Hj]. simpl.
    destruct (l !! j) as [x|] eqn:Hx; [|done]. simpl.
    apply lookup_lt_Some in Hx.
    rewrite lookup_ge_None_2; [done|]. simpl. lia. }
  assert (Hslots : map (convolution_slot zero l [ring_one]) (seq 0 (length l)) = l).
  { apply list_eq. intros k. rewrite list_lookup_fmap.
    destruct (decide (k < length l)%nat) as [Hk|Hk].
    - rewrite lookup_seq_lt by lia. simpl.
      destruct (lookup_lt_is_Some_2 l k Hk) as [x Hx]. rewrite Hx. f_equal.
      unfold convolution_slot.
      rewrite (omap_seq_single _ _ k (ring_mul x ring_one)); [|lia| |].
      + simpl. by rewrite Hmul, Hadd.
      + by rewrite Hx, Nat.sub_diag.
      + intros i Hlt Hi. destruct (l !! i); [|done]. simpl.
        rewrite lookup_ge_None_2; [done|]. simpl. lia.
    - by rewrite lookup_seq_ge, lookup_ge_None_2 by lia. }
  rewrite Hlast, Hslots. unfold ListPolynomial.init. do 2 f_equal.
  rewrite remove_leading_zeros_snoc, Hzero, andb_true_r.
  rewrite bool_decide_eq_true_2 by done.
  apply remove_leading_zeros_done, remove_leading_zeros_stable.
Qed.
End PolynomialProducts.

(** ** Quotient rings: equality of classes, the ring laws, division *)

Section QuotientFurther.
Context {T : Type} {R : RingCapability T} {E : EuclideanRing R}.
Context (modulus : T) (eea : T → T → T * T * T).
Hypothesis modulus_nonzero : ring_bool modulus = true.
Add Ring source_ring_further : ring_laws.

Implicit Types (x y z : T) (a b c : QuotientRing.t T).

Lemma ring_mod_add_l x y :
  ring_mod (ring_add (ring_mod x modulus) y) modulus = ring_mod (ring_add x y) modulus.
Proof.
  rewrite (ring_mod_decompose modulus modulus_nonzero x).
  set (k := ring_neg (ring_divmod x modulus).1).
  rewrite <- (ring_mod_canonical (ring_add x y) k modulus modulus_nonzero).
  f_equal. ring.
Qed.

Lemma ring_mod_add_r x y :
  ring_mod (ring_add x (ring_mod y modulus)) modulus = ring_mod (ring_add x y) modulus.
Proof.
  replace (ring_add x (ring_mod y modulus)) with (ring_add (ring_mod y modulus) x) by ring.
  rewrite ring_mod_add_l. f_equal. ring.
Qed.

Lemma ring_mod_mul_l x y :
  ring_mod (ring_mul (ring_mod x modulus) y) modulus = ring_mod (ring_mul x y) modulus.
Proof.
  rewrite (ring_mod_decompose modulus modulus_nonzero x).
  set (k := ring_neg (ring_divmod x modulus).1).
  rewrite <- (ring_mod_canonical (ring_mul x y) (ring_mul k y) modulus modulus_nonzero).
  f_equal. ring.
Qed.

Lemma ring_mod_mul_r x y :
  ring_mod (ring_mul x (ring_mod y modulus)) modulus = ring_mod (ring_mul x y) modulus.
Proof.
  replace (ring_mul x (ring_mod y modulus)) with (ring_mul (ring_mod y modulus) x) by ring.
  rewrite ring_mod_mul_l. f_equal. ring.
Qed.

Lemma ring_eq_same x y : x = y → ring_eq x y = true.
Proof. intros ->. by apply ring_eq_spec. Qed.

(** X11. Two classes are equal exactly when their representatives differ by
    a multiple of the modulus. *)
Theorem classes_equal_iff_congruent x y :
  (cx ← QuotientRing.init modulus (QuotientRing.Source x);
   cy ← QuotientRing.init modulus (QuotientRing.Source y);
   Return (QuotientRing.eq cx cy)) = Return true ↔
  ∃ k, x = ring_add y (ring_mul k modulus).
Proof.
  simpl. unfold QuotientRing.eq. simpl. split.
  - intros [= H]. apply ring_eq_spec in H.
    pose proof (ring_divmod_spec x modulus modulus_nonzero) as Hx.
    pose proof (ring_divmod_spec y modulus modulus_nonzero) as Hy.
    set (qx := (ring_divmod x modulus).1) in *.
    set (qy := (ring_divmod y modulus).1) in *.
    exists (ring_add qx (ring_neg qy)).
    rewrite Hx at 1. rewrite H. rewrite Hy at 2. ring.
  - intros [k ->]. f_equal. apply ring_eq_same.
    by apply ring_mod_canonical.
Qed.

(** X14. Addition and multiplication of classes are commutative and
    associative, up to [==]. *)
Theorem class_operations_commute_and_associate a b c :
  (s ← QuotientRing.add modulus a b;
   s' ← QuotientRing.add modulus b a;
   Return (QuotientRing.eq s s')) = Return true ∧
  (p ← QuotientRing.mul modulus a b;
   p' ← QuotientRing.mul modulus b a;
   Return (QuotientRing.eq p p')) = Return true ∧
  (s ← QuotientRing.add modulus a b;
   t ← QuotientRing.add modulus s c;
   s' ← QuotientRing.add modulus b c;
   t' ← QuotientRing.add modulus a s';
   Return (QuotientRing.eq t t')) = Return true ∧
  (p ← QuotientRing.mul modulus a b;
   q ← QuotientRing.mul modulus p c;
   p' ← QuotientRing.mul modulus b c;
   q' ← QuotientRing.mul modulus a p';
   Return (QuotientRing.eq q q')) = Return true.
Proof.
  destruct a as [ra], b as [rb], c as [rc].
  simpl. unfold QuotientRing.eq. simpl.
  split; [|split; [|split]]; f_equal; apply ring_eq_same.
  - f_equal. ring.
  - f_equal. ring.
  - rewrite ring_mod_add_l, ring_mod_add_r. f_equal. ring.
  - rewrite ring_mod_mul_l, ring_mod_mul_r. f_equal. ring.
Qed.

(** X15. Multiplication of classes distributes over addition, up to
    [==]. *)
Theorem class_mul_distributes a b c :
  (s ← QuotientRing.add modulus b c;
   p ← QuotientRing.mul modulus a s;
   ab ← QuotientRing.mul modulus a b;
   ac ← QuotientRing.mul modulus a c;
   t ← QuotientRing.add modulus ab ac;
   Return (QuotientRing.eq p t)) = Return true.
Proof.
  destruct a as [ra], b as [rb], c as [rc].
  simpl. unfold QuotientRing.eq. simpl. f_equal. apply ring_eq_same.
  rewrite ring_mod_mul_r, ring_mod_add_l, ring_mod_add_r. f_equal. ring.
Qed.


(** X17. Where the source ring's truth test is false exactly at the zero
    and the zero is its own remainder, a class is falsy exactly when its
    representative is a multiple of the modulus. *)
Theorem class_falsy_iff_multiple x :
  (∀ y, ring_bool y = false ↔ y = ring_zero) →
  ring_mod ring_zero modulus = ring_zero →
  (cx ← QuotientRing.init modulus (QuotientRing.Source x);
   Return (QuotientRing.bool cx)) = Return false ↔
  ∃ k, x = ring_mul k modulus.
Proof.
  intros Hbool Hzero. simpl. unfold QuotientRing.bool. simpl. split.
  - intros [= H]. apply Hbool in H.
    pose proof (ring_divmod_spec x modulus modulus_nonzero) as Hx.
    exists (ring_divmod x modulus).1. rewrite Hx at 1. rewrite H. ring.
  - intros [k ->]. f_equal. apply Hbool.
    etransitivity; [|exact Hzero].
    rewrite <- (ring_mod_canonical ring_zero k modulus modulus_nonzero).
    f_equal. ring.
Qed.

Hypothesis eea_bezout : Bezout eea.

(** X13. Division undoes multiplication: for a reduced dividend and a
    divisor with a non-zero remainder whose gcd with the modulus is the
    one, [(self / other) * other == self]. *)
Theorem division_undoes_multiplication a b (inverse ignore gcd : T) :
  reduced modulus a →
  eea (QuotientRing.remainder b) modulus = (inverse, ignore, gcd) →
  ring_bool (QuotientRing.remainder b) = true →
  ring_eq gcd ring_one = true →
  (q ← QuotientRing.truediv modulus eea a b;
   p ← QuotientRing.mul modulus q b;
   Return (QuotientRing.eq p a)) = Return true.
Proof.
  destruct a as [ra], b as [rb]. unfold reduced. simpl.
  intros Hra Heea Hnonzero Hone.
  pose proof (ring_mod_bezout modulus eea modulus_nonzero eea_bezout rb) as Hbez.
  unfold QuotientRing.truediv, QuotientRing.multiplicative_inverse. simpl.
  rewrite Heea in *. rewrite Hnonzero, Hone. simpl in *.
  unfold QuotientRing.eq. simpl. f_equal. apply ring_eq_same.
  apply ring_eq_spec in Hone. subst gcd.
  rewrite ring_mod_mul_l.
  replace (ring_mul (ring_mul ra (ring_mod inverse modulus)) rb)
    with (ring_mul ra (ring_mul rb (ring_mod inverse modulus))) by ring.
  rewrite <- ring_mod_mul_r, Hbez, ring_mod_mul_r.
  rewrite <- Hra at 2. f_equal. ring.
Qed.
End QuotientFurther.

(** X12. [self / other] raises, and then [ZeroDivisionError], exactly when
    [other] has no inverse (its remainder is zero, or its gcd with the
    modulus is not the one); otherwise it is the class of the product of
    the dividend's remainder with the inverse's; and [__rtruediv__] is the
    same division with the operands exchanged. *)
Theorem truediv_raises_iff_no_inverse
    {T : Type} {R : RingCapability T} (modulus : T) (eea : T → T → T * T * T)
    (a b : QuotientRing.t T) (inverse ignore gcd : T) :
  eea (QuotientRing.remainder b) modulus = (inverse, ignore, gcd) →
  (QuotientRing.truediv modulus eea a b = Raise ZeroDivisionError ↔
   ring_bool (QuotientRing.remainder b) = false ∨ ring_eq gcd ring_one = false) ∧
  (∀ e, QuotientRing.truediv modulus eea a b = Raise e → e = ZeroDivisionError) ∧
  (ring_bool (QuotientRing.remainder b) = true →
   ring_eq gcd ring_one = true →
   QuotientRing.truediv modulus eea a b =
     Return (QuotientRing.mk
               (ring_mod (ring_mul (QuotientRing.remainder a)
                                   (ring_mod inverse modulus)) modulus))) ∧
  QuotientRing.rtruediv modulus eea b a = QuotientRing.truediv modulus eea a b.
Proof.
  intros Heea. unfold QuotientRing.rtruediv, QuotientRing.truediv,
    QuotientRing.multiplicative_inverse. rewrite Heea.
  destruct (ring_bool (QuotientRing.remainder b)); simpl.
  - destruct (ring_eq gcd ring_one); simpl.
    + split; [split; [done | by intros [?|?]]|]. by repeat split.
    + split; [split; [by right | done]|].
      split; [by intros e [= <-]|]. by split.
  - split; [split; [by left | done]|].
    split; [by intros e [= <-]|]. by split.
Qed.

(** ** The constructor on the store *)

Section ConstructorInPlace.
Context {T : Type} {R : RingCapability T}.

(** X18. [ListPolynomial(zero, coefficient_list)] keeps the list object it
    is handed and normalizes that very object: afterwards the caller's list
    holds the normalized coefficients (it is shorter if it ended in a zero
    and had more than one element), and no other list has changed. *)
Theorem constructor_normalizes_in_place
    (zero : T) (ℓ : positive) (σ : gmap positive (list T)) (l : list T) :
  σ !! ℓ = Some l →
  ∃ σ',
    ListStore.init zero ℓ σ = Some (ListStore.mk zero ℓ, σ') ∧
    σ' !! ℓ = Some (ListPolynomial.remove_leading_zeros zero l) ∧
    (ListPolynomial.has_leading_zero zero l = true → σ' !! ℓ ≠ Some l) ∧
    ∀ ℓ', ℓ' ≠ ℓ → σ' !! ℓ' = σ !! ℓ'.
Proof.
  intros Hl. eexists. split; [by apply store_init|]. simpl.
  split; [apply lookup_insert_eq|]. split.
  - intros Hz. rewrite lookup_insert_eq. intros [= Hsame].
    pose proof (has_leading_zero_length _ _ Hz) as Hlong.
    pose proof (remove_leading_zeros_length zero (removelast l)) as Hshort.
    rewrite <- remove_leading_zeros_pop, Hsame in Hshort by done.
    rewrite removelast_firstn_len, length_take in Hshort. lia.
  - intros ℓ' Hne. by rewrite lookup_insert_ne.
Qed.
End ConstructorInPlace.

(** ** The text of a polynomial *)

Module PolynomialText.
Section Defs.
Context {T : Type} {R : RingCapability T}.
(** [str(c)] of a coefficient, which is also what [format] writes for it. *)
Context (coefficient_str : T → string).

(** ["{0} * x**{1}".format(c, i)] *)
Definition power_summand (i : nat) (c : T) : string :=
  coefficient_str c +:+ " * x**" +:+ pretty i.

(** [__str__(self)] of [ListPolynomial]: the summands with powers, then the
    first overwritten by the bare constant (indexing the empty list raises
    [IndexError]), the second by the linear term if there is one, and the
    reversed list joined and wrapped in parentheses. *)
Definition str (self : ListPolynomial.t T) : outcome string :=
  let coefficients := ListPolynomial.coefficients self in
  let summands :=
    map (fun ic => power_summand ic.1 ic.2) (ListPolynomial.enumerate coefficients) in
  c0 ← ListPolynomial.list_getitem coefficients 0;
  let summands := <[0%nat := coefficient_str c0]> summands in
  summands ←
    (if bool_decide (1 < length coefficients)%nat
     then c1 ← ListPolynomial.list_getitem coefficients 1;
          Return (<[1%nat := coefficient_str c1 +:+ " * x"]> summands)
     else Return summands);
  Return ("( " +:+ String.concat " + " (reverse summands) +:+ " )").

(** The summand of [c] at power [i] as the text shows it. *)
Definition shown_summand (i : nat) (c : T) : string :=
  match i with
  | O => coefficient_str c
  | S O => coefficient_str c +:+ " * x"
  | _ => power_summand i c
  end.
End Defs.
End PolynomialText.

Section PolynomialTextFacts.
Context {T : Type} {R : RingCapability T} (coefficient_str : T → string).

Lemma shown_summand_from (start : nat) (cs : list T) :
  (2 ≤ start)%nat →
  map (fun ic => PolynomialText.power_summand coefficient_str ic.1 ic.2)
      (zip (seq start (length cs)) cs) =
  map (fun ic => PolynomialText.shown_summand coefficient_str ic.1 ic.2)
      (zip (seq start (length cs)) cs).
Proof.
  revert start. induction cs as [|c cs IH]; intros start Hstart; [done|].
  simpl. rewrite IH by lia. f_equal.
  destruct start as [|[|start]]; [lia|lia|done].
Qed.

Lemma list_getitem_lookup (l : list T) (k : nat) (c : T) :
  l !! k = Some c → ListPolynomial.list_getitem l (Z.of_nat k) = Return c.
Proof.
  intros Hc. pose proof (lookup_lt_Some _ _ _ Hc) as Hk.
  unfold ListPolynomial.list_getitem.
  rewrite (proj2 (Z.ltb_ge _ _)) by lia.
  rewrite (proj2 (Z.leb_le _ _)), (proj2 (Z.ltb_lt _ _)) by lia. simpl.
  by rewrite Nat2Z.id, Hc.
Qed.

(** X19. [__str__] raises [IndexError] exactly on a polynomial with no
    coefficient; otherwise the text is ["( "], the summands from the highest
    power down joined by [" + "], and [" )"], where the summand of [c] at
    power [i] is [c * x**i], but [c * x] at power one and [c] alone at
    power zero. *)
Theorem str_lists_summands_downwards (p : ListPolynomial.t T) :
  (PolynomialText.str coefficient_str p = Raise IndexError ↔
   ListPolynomial.coefficients p = []) ∧
  (ListPolynomial.coefficients p ≠ [] →
   PolynomialText.str coefficient_str p =
   Return ("( " +:+
           String.concat " + "
             (reverse (map (fun ic => PolynomialText.shown_summand coefficient_str ic.1 ic.2)
                           (ListPolynomial.enumerate (ListPolynomial.coefficients p)))) +:+
           " )")).
Proof.
  destruct p as [zero cs]. unfold PolynomialText.str. simpl.
  destruct cs as [|c0 [|c1 cs]].
  - split; [done|]. by intros [].
  - split; [done|]. intros _. reflexivity.
  - pose proof (list_getitem_lookup (c0 :: c1 :: cs) 0 c0 eq_refl) as Hc0.
    pose proof (list_getitem_lookup (c0 :: c1 :: cs) 1 c1 eq_refl) as Hc1.
    change (Z.of_nat 0) with 0 in Hc0. change (Z.of_nat 1) with 1 in Hc1.
    rewrite Hc0, Hc1.
    rewrite bool_decide_eq_true_2 by (simpl; lia).
    split; [done|]. intros _.
    unfold ListPolynomial.enumerate. simpl.
    rewrite (shown_summand_from 2 cs) by lia. reflexivity.
Qed.
End PolynomialTextFacts.

(** ** Coefficients the ring's constructor rejects *)

Section Coercion.
Context {T : Type} {R : RingCapability T}.

Lemma outcome_map_returns (raw : list ring_raw) (xs : list T) :
  Forall2 (fun c x => ring_call c = Return x) raw xs →
  outcome_map ring_call raw = Return xs.
Proof.
  induction 1 as [|c x raw xs Hc _ IH]; [done|]. simpl. by rewrite Hc, IH.
Qed.

Lemma outcome_map_raises (raw : list ring_raw) (e : exception) :
  outcome_map ring_call raw = Raise e ↔
  ∃ before c after,
    raw = before ++ c :: after ∧
    Forall (fun c' => ∃ x, ring_call c' = Return x) before ∧
    ring_call c = Raise e.
Proof.
  induction raw as [|c raw IH]; simpl.
  - split; [done|]. intros (before & c & after & Hraw & _). by destruct before.
  - destruct (ring_call c) as [x|e'] eqn:Hc; simpl.
    + destruct (outcome_map ring_call raw) as [xs|e'']; simpl.
      * split; [done|]. intros (before & c' & after & Hraw & Hbefore & Hc').
        destruct before as [|c'' before]; simplify_eq/=; [congruence|].
        apply Forall_cons in Hbefore as [_ Hbefore].
        assert (H : @Return (list T) xs = Raise e); [|done].
        apply IH. by exists before, c', after.
      * split.
        -- intros [= ->]. destruct (proj1 IH eq_refl)
             as (before & c' & after & -> & Hbefore & Hc').
           exists (c :: before), c', after. split; [done|].
           split; [|done]. constructor; [by exists x | done].
        -- intros (before & c' & after & Hraw & Hbefore & Hc').
           destruct before as [|c'' before]; simplify_eq/=; [congruence|].
           apply Forall_cons in Hbefore as [_ Hbefore]. f_equal.
           assert (H : @Raise (list T) e'' = Raise e); [|by injection H].
           apply IH. by exists before, c', after.
    + split.
      * intros [= ->]. exists [], c, raw. by repeat split.
      * intros (before & c' & after & Hraw & Hbefore & Hc').
        destruct before as [|c'' before]; simplify_eq/=; [congruence|].
        apply Forall_cons in Hbefore as [[x Hx] _]. congruence.
Qed.

(** X20. [PolynomialRing.__call__] returns the polynomial built from the
    converted coefficients when the coefficient ring's constructor accepts
    every one of them, and otherwise raises what the constructor raises for
    the first coefficient it rejects. *)
Theorem call_raises_first_rejection (raw : list ring_raw) :
  (∀ xs, Forall2 (fun c x => ring_call c = Return x) raw xs →
         PolynomialRing.call raw = Return (ListPolynomial.init ring_zero xs)) ∧
  (∀ e, PolynomialRing.call raw = Raise e ↔
        ∃ before c after,
          raw = before ++ c :: after ∧
          Forall (fun c' => ∃ x, ring_call c' = Return x) before ∧
          ring_call c = Raise e).
Proof.
  unfold PolynomialRing.call. split.
  - intros xs Hxs. by rewrite (outcome_map_returns raw xs Hxs).
  - intros e. rewrite <- outcome_map_raises.
    destruct (outcome_map ring_call raw) as [xs|e']; simpl.
    + split; intros H; discriminate H.
    + split; by intros [= ->].
Qed.
End Coercion.

(** ** Instances of the further properties *)

(** [1 - x] over the integers. *)
Definition p1m1 : ListPolynomial.t Z := ListPolynomial.mk 0 [1; -1].

Lemma Integers_add_comm (x y : Z) : ring_add x y = ring_add y x.
Proof. simpl. lia. Qed.

Lemma Integers_eq_refl (x : Z) : ring_eq x x = true.
Proof. simpl. apply Z.eqb_refl. Qed.

Lemma Integers_neg_zero_test (c : Z) : ring_eq (ring_neg c) 0 = ring_eq c 0.
Proof. by destruct c. Qed.

Lemma Integers_bool_spec (y : Z) : ring_bool y = false ↔ y = ring_zero.
Proof. simpl. rewrite negb_false_iff. apply Z.eqb_eq. Qed.

(** X3 for [x^2 + 2x + 5] and [1 - x]. *)
Lemma add_commutes_witness :
  ListPolynomial.zero_coefficient p521 = ListPolynomial.zero_coefficient p1m1 ∧
  ListPolynomial.add p521 p1m1 = ListPolynomial.add p1m1 p521 ∧
  ListPolynomial.eq (ListPolynomial.add p521 p1m1) (ListPolynomial.add p1m1 p521) = true.
Proof.
  exact (conj eq_refl
           (add_commutes p521 p1m1 Integers_add_comm Integers_eq_refl eq_refl)).
Defined.

(** X4 for [make(5, 2, 1, 0, 0, 0)]. *)
Lemma trailing_zeros_are_dropped_witness :
  [5; 2; 1] ≠ [] ∧
  @ring_eq Z Integers 0 0 = true ∧
  ListPolynomial.init (R := Integers) 0 ([5; 2; 1] ++ replicate 3 0) =
    ListPolynomial.init 0 [5; 2; 1].
Proof.
  assert (Hcs : [5; 2; 1] ≠ @nil Z) by discriminate.
  exact (conj Hcs (conj eq_refl
           (proj1 (trailing_zeros_are_dropped (R := Integers) 0 [5; 2; 1] 3 Hcs eq_refl)))).
Defined.

(** X6 for [make(5, 0, 2, 0)]. *)
Lemma neg_is_slotwise_witness :
  ListPolynomial.coefficients
    (ListPolynomial.neg (ListPolynomial.init (R := Integers) 0 [5; 0; 2; 0])) =
    map ring_neg (ListPolynomial.coefficients (ListPolynomial.init 0 [5; 0; 2; 0])) ∧
  ListPolynomial.degree
    (ListPolynomial.neg (ListPolynomial.init (R := Integers) 0 [5; 0; 2; 0])) =
    ListPolynomial.degree (ListPolynomial.init (R := Integers) 0 [5; 0; 2; 0]).
Proof.
  exact (neg_is_slotwise (R := Integers) 0 [5; 0; 2; 0] Integers_neg_zero_test).
Defined.

(** X8 for [(x^2 + 2x + 5) * (1 - x)], of degree [3] and leading
    coefficient [-1]. *)
Lemma degree_of_product_is_sum_witness :
  last (ListPolynomial.coefficients p521) = Some 1 ∧
  last (ListPolynomial.coefficients p1m1) = Some (-1) ∧
  ∃ product,
    ListPolynomial.mul p521 p1m1 = Return product ∧
    ListPolynomial.degree product =
      ListPolynomial.degree p521 + ListPolynomial.degree p1m1 ∧
    last (ListPolynomial.coefficients product) = Some (ring_add 0 (ring_mul 1 (-1))).
Proof.
  exact (conj eq_refl (conj eq_refl
           (degree_of_product_is_sum p521 p1m1 1 (-1) eq_refl eq_refl eq_refl eq_refl))).
Defined.

(** X9 and X10 for [make(5, 2, 1, 0)]. *)
Lemma add_zero_polynomial_witness :
  [5; 2; 1; 0] ≠ [] ∧
  ListPolynomial.add (ListPolynomial.init (R := Integers) 0 [5; 2; 1; 0])
                     (ListPolynomial.init 0 [0]) =
  ListPolynomial.init 0 [5; 2; 1; 0].
Proof.
  assert (Hcs : [5; 2; 1; 0] ≠ @nil Z) by discriminate.
  assert (Hadd : ∀ x : Z, ring_add x 0 = x) by (intros x; simpl; lia).
  exact (conj Hcs (add_zero_polynomial (R := Integers) 0 [5; 2; 1; 0] Hcs Hadd)).
Defined.

Lemma mul_one_polynomial_witness :
  [5; 2; 1; 0] ≠ [] ∧
  ListPolynomial.mul (ListPolynomial.init (R := Integers) 0 [5; 2; 1; 0])
                     (ListPolynomial.init 0 [ring_one]) =
  Return (ListPolynomial.init 0 [5; 2; 1; 0]).
Proof.
  assert (Hcs : [5; 2; 1; 0] ≠ @nil Z) by discriminate.
  assert (Hmul : ∀ x : Z, ring_mul x ring_one = x) by (intros x; simpl; lia).
  assert (Hadd : ∀ x : Z, ring_add 0 x = x) by (intros x; simpl; lia).
  exact (conj Hcs
           (mul_one_polynomial (R := Integers) 0 [5; 2; 1; 0] Hcs Hmul Hadd eq_refl)).
Defined.

(** X11 at Z/4Z for [9] and [1]. *)
Lemma classes_equal_iff_congruent_witness :
  @ring_bool Z Integers 4 = true ∧
  ((cx ← QuotientRing.init (R := Integers) 4 (QuotientRing.Source 9);
    cy ← QuotientRing.init (R := Integers) 4 (QuotientRing.Source 1);
    Return (QuotientRing.eq cx cy)) = Return true ↔
   ∃ k, 9 = ring_add 1 (ring_mul k 4)).
Proof.
  exact (conj eq_refl (classes_equal_iff_congruent (R := Integers) 4 eq_refl 9 1)).
Defined.

(** X12 and X13 at Z/5Z: [4 / 3]. *)
Lemma truediv_raises_iff_no_inverse_witness :
  Integers_eea 3 5 = (2, -1, 1) ∧
  QuotientRing.truediv (R := Integers) 5 Integers_eea
    (QuotientRing.mk 4) (QuotientRing.mk 3) = Return (QuotientRing.mk 3) ∧
  QuotientRing.rtruediv (R := Integers) 5 Integers_eea
    (QuotientRing.mk 3) (QuotientRing.mk 4) =
  QuotientRing.truediv (R := Integers) 5 Integers_eea
    (QuotientRing.mk 4) (QuotientRing.mk 3).
Proof.
  destruct (truediv_raises_iff_no_inverse (R := Integers) 5 Integers_eea
              (QuotientRing.mk 4) (QuotientRing.mk 3) 2 (-1) 1 eq_refl)
    as (_ & _ & Hreturns & Hreflected).
  exact (conj eq_refl (conj (Hreturns eq_refl eq_refl) Hreflected)).
Defined.

Lemma division_undoes_multiplication_witness :
  reduced (R := Integers) 5 (QuotientRing.mk 4) ∧
  (q ← QuotientRing.truediv (R := Integers) 5 Integers_eea
         (QuotientRing.mk 4) (QuotientRing.mk 3);
   p ← QuotientRing.mul 5 q (QuotientRing.mk 3);
   Return (QuotientRing.eq p (QuotientRing.mk 4))) = Return true.
Proof.
  assert (Hreduced : reduced (R := Integers) 5 (QuotientRing.mk 4)) by reflexivity.
  exact (conj Hreduced
           (division_undoes_multiplication (R := Integers) 5 Integers_eea eq_refl
              Integers_eea_bezout (QuotientRing.mk 4) (QuotientRing.mk 3) 2 (-1) 1
              Hreduced eq_refl eq_refl eq_refl)).
Defined.

(** X14, X15 and X16 at Z/6Z. *)
Lemma class_operations_commute_and_associate_witness :
  @ring_bool Z Integers 6 = true ∧
  (s ← QuotientRing.add (R := Integers) 6 (QuotientRing.mk 5) (QuotientRing.mk 4);
   t ← QuotientRing.add 6 s (QuotientRing.mk 3);
   s' ← QuotientRing.add (R := Integers) 6 (QuotientRing.mk 4) (QuotientRing.mk 3);
   t' ← QuotientRing.add 6 (QuotientRing.mk 5) s';
   Return (QuotientRing.eq t t')) = Return true.
Proof.
  destruct (class_operations_commute_and_associate (R := Integers) 6 eq_refl
              (QuotientRing.mk 5) (QuotientRing.mk 4) (QuotientRing.mk 3))
    as (_ & _ & Hassoc & _).
  exact (conj eq_refl Hassoc).
Defined.

Lemma class_mul_distributes_witness :
  @ring_bool Z Integers 6 = true ∧
  (s ← QuotientRing.add (R := Integers) 6 (QuotientRing.mk 4) (QuotientRing.mk 3);
   p ← QuotientRing.mul 6 (QuotientRing.mk 5) s;
   ab ← QuotientRing.mul (R := Integers) 6 (QuotientRing.mk 5) (QuotientRing.mk 4);
   ac ← QuotientRing.mul (R := Integers) 6 (QuotientRing.mk 5) (QuotientRing.mk 3);
   t ← QuotientRing.add 6 ab ac;
   Return (QuotientRing.eq p t)) = Return true.
Proof.
  exact (conj eq_refl
           (class_mul_distributes (R := Integers) 6 eq_refl
              (QuotientRing.mk 5) (QuotientRing.mk 4) (QuotientRing.mk 3))).
Defined.


(** X17 at Z/4Z for [12]. *)
Lemma class_falsy_iff_multiple_witness :
  ring_mod (R := Integers) ring_zero 4 = ring_zero ∧
  ((cx ← QuotientRing.init (R := Integers) 4 (QuotientRing.Source 12);
    Return (QuotientRing.bool cx)) = Return false ↔
   ∃ k, 12 = ring_mul k 4).
Proof.
  exact (conj eq_refl
           (class_falsy_iff_multiple (R := Integers) 4 eq_refl 12
              Integers_bool_spec eq_refl)).
Defined.

(** X18 for a caller's list [[5, 2, 0, 0]] at address [1]. *)
Lemma constructor_normalizes_in_place_witness :
  let σ : gmap positive (list Z) := {[ 1%positive := [5; 2; 0; 0] ]} in
  σ !! 1%positive = Some [5; 2; 0; 0] ∧
  ∃ σ',
    ListStore.init (R := Integers) 0 1%positive σ = Some (ListStore.mk 0 1%positive, σ') ∧
    σ' !! 1%positive = Some (ListPolynomial.remove_leading_zeros 0 [5; 2; 0; 0]) ∧
    (ListPolynomial.has_leading_zero 0 [5; 2; 0; 0] = true →
     σ' !! 1%positive ≠ Some [5; 2; 0; 0]) ∧
    ∀ ℓ', ℓ' ≠ 1%positive → σ' !! ℓ' = σ !! ℓ'.
Proof.
  intros σ.
  assert (Hσ : σ !! 1%positive = Some [5; 2; 0; 0]) by reflexivity.
  exact (conj Hσ
           (constructor_normalizes_in_place (R := Integers) 0 1%positive σ
              [5; 2; 0; 0] Hσ)).
Defined.
